(** * Dilemma: the Match / Tournament engine of the iterated prisoner's dilemma

    A shallow embedding of the two JavaScript sources of the repository:

    - the Match/Tournament engine ([Match], [setupMatchPlayer],
      [getNextMove], [playRound], [Tournament], [getMatch], [getScore]);
    - the older synchronous driver of [dilemma.js] (module [Legacy]).

    [playMatch] and the engine's [play], which only repeat [playRound], are
    not part of the embedding: a run of rounds is [playRounds].

    Conventions of the embedding.

    - JavaScript values are the inductive [value]; the two moves are the
      strings ["COOPERATE"] and ["DEFECT"], as in the source, and [===] is
      [strict_eq].
    - Scores, round counters and the round limit are integers ([Z]); the
      source computes them with JavaScript numbers, which are exact on
      integers below 2^53.
    - A generator object is a state machine ([Generator]): a private state
      and a transition for [next(arg)], which either throws or returns an
      iterator result [{done, value}].
    - Code that can throw runs in [Exec S], a state-and-exception monad in
      which the state survives a throw (a JavaScript mutation is not undone
      by an exception).
    - A strategy factory runs in [Exec World], where [World] stands for
      everything a factory call may touch outside the Match.
    - [console.log] and [console.error] are not modelled (the only call that
      could matter, [console.error] in [setupMatchPlayer], is wrapped in a
      [try] with an empty [catch]). *)

From Stdlib Require Import ZArith QArith Qround String List Lia Bool.
From Stdlib Require Import DecimalString.
Import ListNotations.

Open Scope Z_scope.

(** ** JavaScript values *)

(** Numbers as arguments: a finite number is a rational (every finite double
    is one), plus the three special values. *)
Inductive number : Type :=
| Finite (q : Q)
| NaN
| Infinity
| NegInfinity.

(** [VError name message] is an error object ([new Error(message)], or the
    [TypeError] the engine raises on a call of a missing method). *)
Inductive value : Type :=
| VUndefined
| VBoolean (b : bool)
| VNumber (n : number)
| VString (s : string)
| VError (name message : string).

Definition COOPERATE : value := VString "COOPERATE".
Definition DEFECT : value := VString "DEFECT".

(** The enumerated moves of the specification, and their JavaScript value. *)
Inductive Move : Type := Cooperate | Defect.

Definition move_value (mv : Move) : value :=
  match mv with
  | Cooperate => COOPERATE
  | Defect => DEFECT
  end.

(** [x === y] on numbers: [NaN] differs from everything, itself included. *)
Definition number_eqb (x y : number) : bool :=
  match x, y with
  | Finite p, Finite q => Qeq_bool p q
  | Infinity, Infinity => true
  | NegInfinity, NegInfinity => true
  | _, _ => false
  end.

(** [x >= y] on numbers. *)
Definition number_geb (x y : number) : bool :=
  match x, y with
  | NaN, _ | _, NaN => false
  | Infinity, _ => true
  | _, NegInfinity => true
  | NegInfinity, _ => false
  | _, Infinity => false
  | Finite p, Finite q => Qle_bool q p
  end.

(** [Math.floor] on numbers. *)
Definition Math_floor (x : number) : number :=
  match x with
  | Finite q => Finite (inject_Z (Qfloor q))
  | other => other
  end.

(** [x === y].  Two error objects are never the same object in this program
    (each is created by its own [new Error]), so they compare unequal. *)
Definition strict_eq (x y : value) : bool :=
  match x, y with
  | VUndefined, VUndefined => true
  | VBoolean a, VBoolean b => Bool.eqb a b
  | VNumber a, VNumber b => number_eqb a b
  | VString a, VString b => String.eqb a b
  | _, _ => false
  end.

Declare Scope js_scope.
Delimit Scope js_scope with js.
Notation "x === y" := (strict_eq x y) (at level 70, no associativity) : js_scope.
Notation "x !== y" := (negb (strict_eq x y)) (at level 70, no associativity) : js_scope.
Open Scope js_scope.

(** ** Completions and the execution monad *)

Inductive Completion (A : Type) : Type :=
| Normal (a : A)
| Throw (exc : value).
Arguments Normal {A} a.
Arguments Throw {A} exc.

Definition Exec (S A : Type) : Type := S -> Completion A * S.

Definition ret {S A} (a : A) : Exec S A := fun s => (Normal a, s).

Definition throw {S A} (exc : value) : Exec S A := fun s => (Throw exc, s).

Definition bind {S A B} (c : Exec S A) (k : A -> Exec S B) : Exec S B :=
  fun s =>
    match c s with
    | (Normal a, s') => k a s'
    | (Throw exc, s') => (Throw exc, s')
    end.

(** [try { body } catch (exc) { handler exc }]. *)
Definition try_catch {S A} (body : Exec S A) (handler : value -> Exec S A)
  : Exec S A :=
  fun s =>
    match body s with
    | (Normal a, s') => (Normal a, s')
    | (Throw exc, s') => handler exc s'
    end.

Definition get {S} : Exec S S := fun s => (Normal s, s).
Definition modify {S} (f : S -> S) : Exec S unit := fun s => (Normal tt, f s).

Notation "x <- c ;; k" := (bind c (fun x => k))
  (at level 61, c at next level, right associativity) : js_scope.
Notation "c ;;; k" := (bind c (fun _ => k))
  (at level 61, right associativity) : js_scope.

(** ** Generators (strategy instances) *)

Record IteratorResult : Type := mkResult {
  result_done : bool;
  result_value : value
}.

(** A generator object: [gen_next st arg] is [gen.next(arg)] in state [st];
    it gives the completion of the call and the state the object is left
    in. *)
Record Generator : Type := mkGenerator {
  gen_state : Type;
  gen_current : gen_state;
  gen_next : gen_state -> value -> Completion IteratorResult * gen_state
}.

(** [gen.next(arg)]: the completion, and the same object in its new state. *)
Definition next (gen : Generator) (arg : value)
  : Completion IteratorResult * Generator :=
  let '(c, st) := gen_next gen (gen_current gen) arg in
  (c, mkGenerator (gen_state gen) st (gen_next gen)).

Definition yields (v : value) : Completion IteratorResult :=
  Normal (mkResult false v).

Definition returns (v : value) : Completion IteratorResult :=
  Normal (mkResult true v).

(** *** The example strategies of the source *)

(** [function* goodGuyGreg() { while (true) yield COOPERATE; }] *)
Definition goodGuyGreg_gen : Generator :=
  mkGenerator unit tt (fun st _ => (yields COOPERATE, st)).

(** [function* scumbagSteve() { while (true) yield DEFECT; }] *)
Definition scumbagSteve_gen : Generator :=
  mkGenerator unit tt (fun st _ => (yields DEFECT, st)).

(** The three places where [HighExpectationsAsianFather] can be suspended:
    not started, at the [yield COOPERATE] of the do-while loop, at the
    [yield DEFECT] of the final loop. *)
Inductive FatherState : Type := FatherStart | FatherTrusting | FatherDisowned.

Definition HighExpectationsAsianFather_next (st : FatherState) (arg : value)
  : Completion IteratorResult * FatherState :=
  match st with
  | FatherStart => (yields COOPERATE, FatherTrusting)
  | FatherTrusting =>
      (* otherPlayerMove = yield COOPERATE;  while (otherPlayerMove === COOPERATE) *)
      if arg === COOPERATE then (yields COOPERATE, FatherTrusting)
      else (yields DEFECT, FatherDisowned)
  | FatherDisowned => (yields DEFECT, FatherDisowned)
  end.

Definition HighExpectationsAsianFather_gen : Generator :=
  mkGenerator FatherState FatherStart HighExpectationsAsianFather_next.

(** ** Match *)

Inductive Status : Type := paused | running | done.

Definition Status_eqb (a b : Status) : bool :=
  match a, b with
  | paused, paused | running, running | done, done => true
  | _, _ => false
  end.

(** The Match object.  The first block of fields is what the constructor
    assigns; [_g1] and [_g2] are assigned by [setupMatchPlayer];
    [scoreChange1], [scoreChange2], [prevMove1] and [prevMove2] are created
    by [playRound].  [_logError] is the property [getNextMove] calls: no
    code of the repository assigns it, neither on the object nor on
    [Match.prototype], so it is [None] on every Match the constructor
    returns; it is a field here so that the behaviour with a host-installed
    logger can be stated too. *)
Record Match : Type := mkMatch {
  round : Z;
  roundLimit : Z;
  score1 : Z;
  score2 : Z;
  lastMove1 : value;
  lastMove2 : value;
  lastScore1 : value;
  lastScore2 : value;
  status : Status;
  _g1 : option Generator;
  _g2 : option Generator;
  scoreChange1 : option Z;
  scoreChange2 : option Z;
  prevMove1 : value;
  prevMove2 : value;
  _logError : option (value -> Completion unit)
}.

(** Property assignments on the Match object. *)
Definition set_round (v : Z) (m : Match) : Match :=
  mkMatch v (roundLimit m) (score1 m) (score2 m) (lastMove1 m) (lastMove2 m)
    (lastScore1 m) (lastScore2 m) (status m) (_g1 m) (_g2 m)
    (scoreChange1 m) (scoreChange2 m) (prevMove1 m) (prevMove2 m) (_logError m).

Definition set_score1 (v : Z) (m : Match) : Match :=
  mkMatch (round m) (roundLimit m) v (score2 m) (lastMove1 m) (lastMove2 m)
    (lastScore1 m) (lastScore2 m) (status m) (_g1 m) (_g2 m)
    (scoreChange1 m) (scoreChange2 m) (prevMove1 m) (prevMove2 m) (_logError m).

Definition set_score2 (v : Z) (m : Match) : Match :=
  mkMatch (round m) (roundLimit m) (score1 m) v (lastMove1 m) (lastMove2 m)
    (lastScore1 m) (lastScore2 m) (status m) (_g1 m) (_g2 m)
    (scoreChange1 m) (scoreChange2 m) (prevMove1 m) (prevMove2 m) (_logError m).

Definition set_status (v : Status) (m : Match) : Match :=
  mkMatch (round m) (roundLimit m) (score1 m) (score2 m) (lastMove1 m)
    (lastMove2 m) (lastScore1 m) (lastScore2 m) v (_g1 m) (_g2 m)
    (scoreChange1 m) (scoreChange2 m) (prevMove1 m) (prevMove2 m) (_logError m).

Definition set_g1 (v : option Generator) (m : Match) : Match :=
  mkMatch (round m) (roundLimit m) (score1 m) (score2 m) (lastMove1 m)
    (lastMove2 m) (lastScore1 m) (lastScore2 m) (status m) v (_g2 m)
    (scoreChange1 m) (scoreChange2 m) (prevMove1 m) (prevMove2 m) (_logError m).

Definition set_g2 (v : option Generator) (m : Match) : Match :=
  mkMatch (round m) (roundLimit m) (score1 m) (score2 m) (lastMove1 m)
    (lastMove2 m) (lastScore1 m) (lastScore2 m) (status m) (_g1 m) v
    (scoreChange1 m) (scoreChange2 m) (prevMove1 m) (prevMove2 m) (_logError m).

Definition set_scoreChange1 (v : Z) (m : Match) : Match :=
  mkMatch (round m) (roundLimit m) (score1 m) (score2 m) (lastMove1 m)
    (lastMove2 m) (lastScore1 m) (lastScore2 m) (status m) (_g1 m) (_g2 m)
    (Some v) (scoreChange2 m) (prevMove1 m) (prevMove2 m) (_logError m).

Definition set_scoreChange2 (v : Z) (m : Match) : Match :=
  mkMatch (round m) (roundLimit m) (score1 m) (score2 m) (lastMove1 m)
    (lastMove2 m) (lastScore1 m) (lastScore2 m) (status m) (_g1 m) (_g2 m)
    (scoreChange1 m) (Some v) (prevMove1 m) (prevMove2 m) (_logError m).

Definition set_prevMove1 (v : value) (m : Match) : Match :=
  mkMatch (round m) (roundLimit m) (score1 m) (score2 m) (lastMove1 m)
    (lastMove2 m) (lastScore1 m) (lastScore2 m) (status m) (_g1 m) (_g2 m)
    (scoreChange1 m) (scoreChange2 m) v (prevMove2 m) (_logError m).

Definition set_prevMove2 (v : value) (m : Match) : Match :=
  mkMatch (round m) (roundLimit m) (score1 m) (score2 m) (lastMove1 m)
    (lastMove2 m) (lastScore1 m) (lastScore2 m) (status m) (_g1 m) (_g2 m)
    (scoreChange1 m) (scoreChange2 m) (prevMove1 m) v (_logError m).

(** What a host would do to give the Match the method [getNextMove] calls:
    [match._logError = log].  Nothing in the repository does it. *)
Definition set_logError (v : option (value -> Completion unit)) (m : Match)
  : Match :=
  mkMatch (round m) (roundLimit m) (score1 m) (score2 m) (lastMove1 m)
    (lastMove2 m) (lastScore1 m) (lastScore2 m) (status m) (_g1 m) (_g2 m)
    (scoreChange1 m) (scoreChange2 m) (prevMove1 m) (prevMove2 m) v.

(** [match["score" + k] = v] and [match["_g" + k] = gen], for the two keys
    the engine ever builds. *)
Definition set_score (k : Z) (v : Z) (m : Match) : Match :=
  if k =? 1 then set_score1 v m
  else if k =? 2 then set_score2 v m
  else m.

Definition set_g (k : Z) (gen : Generator) (m : Match) : Match :=
  if k =? 1 then set_g1 (Some gen) m
  else if k =? 2 then set_g2 (Some gen) m
  else m.

(** *** Construction *)

Section Construction.

(** Whatever a strategy factory can read and change when it is called. *)
Variable World : Type.

(** A strategy factory: [genfn()] returns a generator or throws. *)
Definition Factory : Type := Exec World Generator.

(** [setupMatchPlayer(match, n, genfn)]: the Match object is passed
    explicitly and returned with the result. *)
Definition setupMatchPlayer (m : Match) (n : Z) (genfn : Factory)
  : Exec World (bool * Match) :=
  try_catch
    (gen <- genfn ;;
     ret (true, set_g n gen m))
    (fun exc =>
       (* Forfeit.  Set the other player's score to 5N. *)
       ret (false, set_score (3 - n) (roundLimit m * 5) (set_status done m))).

(** The object [new Match(player1, player2, rounds)] starts from. *)
Definition Match_init (rounds : Z) : Match :=
  mkMatch 0 rounds 0 0 VUndefined VUndefined VUndefined VUndefined paused
    None None None None VUndefined VUndefined None.

(** [new Match(player1, player2, rounds)]; the last statement is
    [setupMatchPlayer(this, 1, player1) && setupMatchPlayer(this, 2, player2)]. *)
Definition Match_new (player1 player2 : Factory) (rounds : Z)
  : Exec World Match :=
  r1 <- setupMatchPlayer (Match_init rounds) 1 player1 ;;
  let '(ok, this) := r1 in
  if ok then
    r2 <- setupMatchPlayer this 2 player2 ;;
    ret (snd r2)
  else ret this.

End Construction.

Arguments setupMatchPlayer {World} m n genfn _.
Arguments Match_new {World} player1 player2 rounds _.

(** *** Rounds *)

Definition decimal (z : Z) : string := NilZero.string_of_int (Z.to_int z).

Definition Error (message : string) : value := VError "Error" message.
Definition TypeError (message : string) : value := VError "TypeError" message.

(** [match._logError(err)]: a call of a property that is not a function
    throws a [TypeError]. *)
Definition logError (err : value) : Exec Match unit :=
  fun m =>
    match _logError m with
    | Some log => (log err, m)
    | None => (Throw (TypeError "match._logError is not a function"), m)
    end.

(** [getNextMove(match, name, gen, arg)].  [gen] is the object held in
    [match._g<name>]: the state [gen.next(arg)] leaves it in is written back
    to that slot. *)
Definition getNextMove (name : Z) (gen : option Generator) (arg : value)
  : Exec Match value :=
  match gen with
  | None =>
      throw (TypeError "Cannot read properties of undefined (reading 'next')")
  | Some g =>
      let '(completion, g') := next g arg in
      modify (set_g name g') ;;;
      match completion with
      | Throw exc => throw exc
      | Normal result =>
          if result_done result then
            logError (Error ("Player " ++ decimal name
                             ++ " returned without yielding!")) ;;;
            ret VUndefined
          else
            let move := result_value result in
            if (move !== COOPERATE) && (move !== DEFECT) then
              logError (Error ("Player " ++ decimal name
                ++ " made an illegal move (please yield COOPERATE or DEFECT)")) ;;;
              ret VUndefined
            else ret move
      end
  end.

(** The payoff block of [playRound] ("Interpret the results and adjust the
    scores"): the values assigned to [scoreChange1] and [scoreChange2]. *)
Definition evaluate (move1 move2 : value) : Z * Z :=
  if move1 === COOPERATE then
    if move2 === COOPERATE then (3, 3) else (0, 5)
  else
    if move2 === COOPERATE then (5, 0) else (1, 1).

(** The forfeit block of [playRound]. *)
Definition forfeitRound (move1 move2 : value) (self : Match) : Match :=
  let d1 := if move1 === VUndefined then 0
            else 5 * (roundLimit self - round self) in
  let d2 := if move2 === VUndefined then 0
            else 5 * (roundLimit self - round self) in
  let self := set_scoreChange1 d1 self in
  let self := set_scoreChange2 d2 self in
  let self := set_score1 (score1 self + d1) self in
  let self := set_score2 (score2 self + d2) self in
  set_status done self.

(** The rest of [playRound], for two proper moves. *)
Definition scoreRound (move1 move2 : value) (self : Match) : Match :=
  let '(d1, d2) := evaluate move1 move2 in
  let self := set_scoreChange1 d1 self in
  let self := set_scoreChange2 d2 self in
  let self := set_score1 (score1 self + d1) self in
  let self := set_score2 (score2 self + d2) self in
  (* Remember these moves for the next round. *)
  let self := set_prevMove1 move1 self in
  let self := set_prevMove2 move2 self in
  (* Are we there yet? *)
  let self := set_round (round self + 1) self in
  set_status (if round self >=? roundLimit self then done else paused) self.

(** The state of the promise [playRound] returns; a resolved promise carries
    the Match itself, which is the state of the monad. *)
Inductive Promise : Type :=
| Resolved
| Rejected (reason : value).

(** [new Promise(executor)]: the executor runs at once; if it throws, the
    promise is rejected with what it threw.  Both normal paths of the
    executor of [playRound] call [resolve(self)]. *)
Definition new_Promise {S} (executor : Exec S unit) : Exec S Promise :=
  fun s =>
    match executor s with
    | (Normal _, s') => (Normal Resolved, s')
    | (Throw exc, s') => (Normal (Rejected exc), s')
    end.

(** The two calls of [getNextMove] at the start of the executor of
    [playRound]. *)
Definition roundMoves : Exec Match (value * value) :=
  (* Pass each player the other player's previous move. *)
  self <- get ;;
  move1 <- getNextMove 1 (_g1 self) (lastMove2 self) ;;
  self <- get ;;
  move2 <- getNextMove 2 (_g2 self) (lastMove1 self) ;;
  ret (move1, move2).

Definition playRound_executor : Exec Match unit :=
  moves <- roundMoves ;;
  let '(move1, move2) := moves in
  if (move1 === VUndefined) || (move2 === VUndefined) then
    (* One or both players failed to return a proper move!  Compute forfeit. *)
    modify (forfeitRound move1 move2)
  else
    modify (scoreRound move1 move2).

(** [Match.prototype.playRound]. *)
Definition playRound : Exec Match Promise :=
  this <- get ;;
  if Status_eqb (status this) running then
    throw (Error "Dilemma.Match.playRound: The match is already running.")
  else if Status_eqb (status this) done then
    throw (Error "Dilemma.Match.playRound: The match is already over.")
  else
    modify (set_status running) ;;;
    new_Promise playRound_executor.

(** The Match after [n] calls of [playRound], whatever each call did
    (thrown, rejected or resolved). *)
Fixpoint playRounds (n : nat) (m : Match) : Match :=
  match n with
  | O => m
  | S k => playRounds k (snd (playRound m))
  end.

(** ** Tournament *)

Fixpoint mapM {S A B} (f : A -> Exec S B) (l : list A) : Exec S (list B) :=
  match l with
  | [] => ret []
  | x :: rest =>
      y <- f x ;;
      ys <- mapM f rest ;;
      ret (y :: ys)
  end.

Section Tournaments.

Variable World : Type.

Record Tournament : Type := mkTournament {
  players : list (Factory World);
  matches : list (list Match);
  scores : list Z
}.

(** [players[i]] used as a factory: when the element is missing the call
    [genfn()] in [setupMatchPlayer] throws a [TypeError] (inside the
    [try]). *)
Definition player_at (ps : list (Factory World)) (i : nat) : Factory World :=
  match nth_error ps i with
  | Some genfn => genfn
  | None => throw (TypeError "genfn is not a function")
  end.

(** [new Tournament(players, rounds)]: row [i] is built for [i] from 0 to
    [players.length - 1], and in it the Match of [players[i]] against
    [players[j]] for [j] from 0 to [i - 1]. *)
Definition Tournament_new (ps : list (Factory World)) (rounds : Z)
  : Exec World Tournament :=
  rows <- mapM (fun i =>
            mapM (fun j => Match_new (player_at ps i) (player_at ps j) rounds)
                 (seq 0 i))
          (seq 0 (length ps)) ;;
  ret (mkTournament ps rows (repeat 0 (length ps))).

(** [array[n]] for a number [n]: an element only at an integer index
    inside the array, [undefined] ([None]) otherwise. *)
Definition element {A} (array : list A) (n : number) : option A :=
  match n with
  | Finite q =>
      if Qeq_bool (inject_Z (Qfloor q)) q && (0 <=? Qfloor q)
      then nth_error array (Z.to_nat (Qfloor q))
      else None
  | _ => None
  end.

Definition number_of_nat (n : nat) : number := Finite (inject_Z (Z.of_nat n)).
Definition number_of_Z (z : Z) : number := Finite (inject_Z z).

Definition invalid_argument : value :=
  Error "Tournament.getMatch: invalid argument".

(** [Tournament.prototype.getMatch].  For an argument that is not a number
    [Math.floor(x)] is a number and [x] is not, so [Math.floor(x) !== x]
    holds and the guard throws.  The result [None] is [undefined]. *)
Definition getMatch (t : Tournament) (i1 i2 : value)
  : Completion (option Match) :=
  match i1, i2 with
  | VNumber n1, VNumber n2 =>
      if negb (number_eqb (Math_floor n1) n1)
         || number_geb n1 (number_of_nat (length (players t)))
         || negb (number_eqb (Math_floor n2) n2)
         || number_geb n2 n1
      then Throw invalid_argument
      else
        match element (matches t) n1 with
        | None =>
            Throw (TypeError "Cannot read properties of undefined")
        | Some row => Normal (element row n2)
        end
  | _, _ => Throw invalid_argument
  end.

(** The values the variable [score] of [getScore] can hold: the number it
    starts as, [NaN], or a string. *)
Inductive Score : Type :=
| ScoreNumber (z : Z)
| ScoreNaN
| ScoreString (s : string).

Definition ToString (score : Score) : string :=
  match score with
  | ScoreNumber z => decimal z
  | ScoreNaN => "NaN"
  | ScoreString s => s
  end.

(** [score + x] where [x] is what [this.matches[a][b]] gave: a Match
    object, or [undefined].  An object has no primitive value other than
    its string ["[object Object]"], so the sum is a concatenation. *)
Definition plus (score : Score) (x : option Match) : Score :=
  match x with
  | Some _ => ScoreString (ToString score ++ "[object Object]")
  | None =>
      match score with
      | ScoreString s => ScoreString (s ++ "undefined")
      | _ => ScoreNaN
      end
  end.

(** [this.matches[a][b]]: a [TypeError] when the row is [undefined]. *)
Definition matches_at (t : Tournament) (a b : nat)
  : Completion (option Match) :=
  match nth_error (matches t) a with
  | None => Throw (TypeError "Cannot read properties of undefined")
  | Some row => Normal (nth_error row b)
  end.

(** One loop of [getScore]: [score += this.matches[a][b]] over the given
    index pairs, in order. *)
Fixpoint accumulate (t : Tournament) (score : Score) (cells : list (nat * nat))
  : Completion Score :=
  match cells with
  | [] => Normal score
  | (a, b) :: rest =>
      match matches_at t a b with
      | Throw exc => Throw exc
      | Normal x => accumulate t (plus score x) rest
      end
  end.

(** [Tournament.prototype.getScore], for a non-negative integer [i]. *)
Definition getScore (t : Tournament) (i : nat) : Completion Score :=
  let score := ScoreNumber 0 in
  match accumulate t score (map (fun j => (i, j)) (seq 0 i)) with
  | Throw exc => Throw exc
  | Normal score =>
      accumulate t score
        (map (fun j => (j, i)) (seq (i + 1) (length (players t) - (i + 1))))
  end.

(** What the specification means by the score of player [i]: the sum of
    [score1] over row [i] and of [score2] over column [i]. *)
Definition score_of_cell (pick : Match -> Z) (x : option Match) : Z :=
  match x with
  | Some m => pick m
  | None => 0
  end.

Definition intended_score (t : Tournament) (i : nat) : Z :=
  fold_left Z.add
    (map (fun j => score_of_cell score1
                     (match nth_error (matches t) i with
                      | Some row => nth_error row j | None => None end))
         (seq 0 i)) 0
  + fold_left Z.add
    (map (fun j => score_of_cell score2
                     (match nth_error (matches t) j with
                      | Some row => nth_error row i | None => None end))
         (seq (i + 1) (length (players t) - (i + 1)))) 0.

End Tournaments.

Arguments players {World} t.
Arguments matches {World} t.
Arguments scores {World} t.
Arguments Tournament_new {World} ps rounds _.
Arguments getMatch {World} t i1 i2.
Arguments getScore {World} t i.
Arguments matches_at {World} t a b.
Arguments accumulate {World} t score cells.
Arguments intended_score {World} t i.

(** ** The older driver of [dilemma.js] *)

Module Legacy.

(** [getNextMove(name, gen, arg)] of [dilemma.js]: it throws where the
    engine's version logs. *)
Definition getNextMove (name : string) (gen : Generator) (arg : value)
  : Completion value * Generator :=
  let '(completion, gen') := next gen arg in
  match completion with
  | Throw exc => (Throw exc, gen')
  | Normal result =>
      if result_done result then
        (Throw (Error ("Player " ++ name ++ " returned without yielding!")),
         gen')
      else
        let move := result_value result in
        if (move !== COOPERATE) && (move !== DEFECT) then
          (Throw (Error ("Player " ++ name
             ++ " made an illegal move (please yield COOPERATE or DEFECT)")),
           gen')
        else (Normal move, gen')
  end.

(** The local variables of [play] that the loop changes. *)
Record Locals : Type := mkLocals {
  gen1 : Generator;
  gen2 : Generator;
  score1 : Z;
  score2 : Z;
  prev1 : value;
  prev2 : value
}.

(** "Interpret the results and adjust the scores": the new values of
    [score1] and [score2]. *)
Definition adjust (move1 move2 : value) (s1 s2 : Z) : Z * Z :=
  if move1 === COOPERATE then
    if move2 === COOPERATE then (s1 + 3, s2 + 3)
    else (s1, s2 + 5)
  else
    if move2 === COOPERATE then (s1 + 5, s2)
    else (s1 + 1, s2 + 1).

(** The body of the [for] loop. *)
Definition iteration (l : Locals) : Completion Locals :=
  let '(c1, g1) := getNextMove "1" (gen1 l) (prev2 l) in
  match c1 with
  | Throw exc => Throw exc
  | Normal move1 =>
      let '(c2, g2) := getNextMove "2" (gen2 l) (prev1 l) in
      match c2 with
      | Throw exc => Throw exc
      | Normal move2 =>
          let '(s1, s2) := adjust move1 move2 (score1 l) (score2 l) in
          (* Remember these moves for the next round. *)
          Normal (mkLocals g1 g2 s1 s2 move1 move2)
      end
  end.

Fixpoint loop (rounds : nat) (l : Locals) : Completion Locals :=
  match rounds with
  | O => Normal l
  | S k =>
      match iteration l with
      | Throw exc => Throw exc
      | Normal l' => loop k l'
      end
  end.

(** [play(player1, player2, rounds)], for a non-negative integer
    [rounds]; the result is the array [[score1, score2]]. *)
Definition play {World} (player1 player2 : Factory World) (rounds : nat)
  : Exec World (Z * Z) :=
  g1 <- player1 ;;
  g2 <- player2 ;;
  fun w =>
    match loop rounds (mkLocals g1 g2 0 0 VUndefined VUndefined) with
    | Throw exc => (Throw exc, w)
    | Normal l => (Normal (score1 l, score2 l), w)
    end.

End Legacy.

(** ** Notions the properties are stated with *)

(** The payoff table of the specification (section 4.1), row by row. *)
Definition payoff_table (move1 move2 : Move) : Z * Z :=
  match move1, move2 with
  | Cooperate, Cooperate => (3, 3)
  | Cooperate, Defect => (0, 5)
  | Defect, Cooperate => (5, 0)
  | Defect, Defect => (1, 1)
  end.

(** [match["score" + n]]. *)
Definition get_score (n : Z) (m : Match) : Z :=
  if n =? 1 then score1 m else score2 m.

(** What a caller can read of a Match: status, scores, round counter. *)
Definition public_state (m : Match) : Status * Z * Z * Z :=
  (status m, score1 m, score2 m, round m).

(** A factory call raised while the Match was constructed: [n] is the side,
    [w'] the world the failing call left. *)
Inductive raises_in_construction {World} (player1 player2 : Factory World)
  (w : World) : Z -> World -> Prop :=
| first_raises exc w1 :
    player1 w = (Throw exc, w1) ->
    raises_in_construction player1 player2 w 1 w1
| second_raises gen w1 exc w2 :
    player1 w = (Normal gen, w1) ->
    player2 w1 = (Throw exc, w2) ->
    raises_in_construction player1 player2 w 2 w2.

(** The catch block of [setupMatchPlayer] ("Forfeit.") ran during
    [new Match(player1, player2, rounds)]. *)
Definition construction_forfeits {World} (player1 player2 : Factory World)
  (w : World) : bool :=
  match player1 w with
  | (Throw _, _) => true
  | (Normal _, w1) =>
      match player2 w1 with
      | (Throw _, _) => true
      | (Normal _, _) => false
      end
  end.

(** A call of [playRound] on [m] reaches the forfeit block ("Compute
    forfeit."): the match is paused, both calls of [getNextMove] return, and
    one of the moves is [undefined].  This is a fact about the control flow
    of the code, not the forfeit of the specification: [getNextMove] returns
    [undefined] only after its call of [_logError] has returned. *)
Definition takes_forfeit_block (m : Match) : bool :=
  match status m with
  | paused =>
      match roundMoves (set_status running m) with
      | (Normal (move1, move2), _) =>
          (move1 === VUndefined) || (move2 === VUndefined)
      | (Throw _, _) => false
      end
  | _ => false
  end.

(** *** Strategies used as concrete inputs *)

(** [function* () {}]: returns without yielding. *)
Definition quitter_gen : Generator :=
  mkGenerator unit tt (fun st _ => (returns VUndefined, st)).

(** [function* () { while (true) yield "MAYBE"; }]: an illegal move. *)
Definition illegal_gen : Generator :=
  mkGenerator unit tt (fun st _ => (yields (VString "MAYBE"), st)).

(** [function* () { throw new Error("boom"); }]: the first resumption
    raises, which finishes the generator; the state says whether it has
    finished. *)
Definition thrower_gen : Generator :=
  mkGenerator bool false
    (fun finished _ =>
       if finished then (returns VUndefined, true)
       else (Throw (Error "boom"), true)).

(** [function* () { var seen = []; while (true) seen.push(yield COOPERATE); }]:
    the state is [None] before the first resumption (whose argument a
    generator never sees) and then [Some seen], the arguments of the later
    resumptions, oldest first. *)
Definition recorder_gen : Generator :=
  mkGenerator (option (list value)) None
    (fun st arg =>
       match st with
       | None => (yields COOPERATE, Some [])
       | Some seen => (yields COOPERATE, Some (seen ++ [arg]))
       end).

(** Factories over a world that counts the factory calls made so far. *)
Definition factory_of (gen : Generator) : Factory nat :=
  fun calls => (Normal gen, S calls).

Definition failing_factory : Factory nat :=
  fun calls => (Throw (Error "no strategy"), S calls).

(** The Match a constructor call returns (the initial object when it
    throws, which it never does: see [Match_new_returns]). *)
Definition constructed {World} (c : Completion Match * World) : Match :=
  match c with
  | (Normal m, _) => m
  | (Throw _, _) => Match_init 0
  end.

Definition constructed_tournament {World}
  (c : Completion (Tournament World) * World) : Tournament World :=
  match c with
  | (Normal t, _) => t
  | (Throw _, _) => mkTournament World [] [] []
  end.

(** The fields of a Match that the calls of [getNextMove] leave alone:
    everything but the two generator slots. *)
Definition same_fields (m m' : Match) : Prop :=
  round m' = round m /\ roundLimit m' = roundLimit m
  /\ score1 m' = score1 m /\ score2 m' = score2 m
  /\ status m' = status m
  /\ lastMove1 m' = lastMove1 m /\ lastMove2 m' = lastMove2 m
  /\ _logError m' = _logError m.

(** What [getNextMove] can return: a proper move or [undefined]. *)
Definition move_or_undefined (v : value) : Prop :=
  v = VUndefined \/ v = COOPERATE \/ v = DEFECT.

(** The forfeit code has run in the life of a Match built by
    [new Match(player1, player2, rounds)] in world [w] and then advanced [n]
    times from [start]: the catch block of [setupMatchPlayer] at
    construction, or the forfeit block of [playRound] in one of the [n]
    calls.  This says which code ran; the forfeit of the specification, a
    strategy that misbehaves, is [forfeit_occurred] below. *)
Definition forfeit_block_ran {World} (player1 player2 : Factory World)
  (w : World) (start : Match) (n : nat) : Prop :=
  construction_forfeits player1 player2 w = true
  \/ exists k : nat, (k < n)%nat /\ takes_forfeit_block (playRounds k start) = true.

(** [score] after [k] Match objects have been added to it. *)
Fixpoint add_objects (score : Score) (k : nat) : Score :=
  match k with
  | O => score
  | S k' => add_objects (ScoreString (ToString score ++ "[object Object]")) k'
  end.

(** ** The full-match driver *)

(** The function [go] inside [playMatch]: one call of [playRound], and on
    its resolution either [resolve(self)] or [go()] again.  The result is
    how the promise of [playMatch] is settled, with the Match as it is then;
    [None] means that after [fuel] rounds the promise is still pending.  A
    synchronous throw of [playRound] inside [go] and a rejection of its
    promise both end in [reject]: the first through the executor or the
    [then] callback that called [go], the second through [.catch(reject)]. *)
Fixpoint playMatch_go (fuel : nat) (self : Match) : option (Promise * Match) :=
  match fuel with
  | O => None
  | S k =>
      match playRound self with
      | (Throw exc, self') => Some (Rejected exc, self')
      | (Normal (Rejected exc), self') => Some (Rejected exc, self')
      | (Normal Resolved, self') =>
          if Status_eqb (status self') done then Some (Resolved, self')
          else playMatch_go k self'
      end
  end.

(** [Match.prototype.playMatch]: it throws when the match is running,
    returns [Promise.resolve(this)] when it is done, and otherwise returns the
    promise that [go] settles. *)
Definition playMatch (fuel : nat) (this : Match)
  : option (Completion Promise * Match) :=
  if Status_eqb (status this) running then
    Some (Throw (Error "Dilemma.Match.playMatch: The match is already running."),
          this)
  else if Status_eqb (status this) done then
    Some (Normal Resolved, this)
  else
    match playMatch_go fuel this with
    | Some (promise, this') => Some (Normal promise, this')
    | None => None
    end.

(** Rounds that always suffice for [playMatch] on [m]. *)
Definition enough_fuel (m : Match) : nat :=
  Z.to_nat (Z.max 1 (roundLimit m - round m)).

(** ** More notions for the properties *)

(** A strategy that yields the same move for ever ([goodGuyGreg] and
    [scumbagSteve] are the two instances). *)
Definition always_gen (mv : Move) : Generator :=
  mkGenerator unit tt (fun st _ => (yields (move_value mv), st)).

(** A factory that makes [gen] and leaves the world alone. *)
Definition pure_factory {World} (gen : Generator) : Factory World :=
  fun w => (Normal gen, w).

(** The completions of resuming [gen] with each of [args] in turn. *)
Fixpoint resume_all (gen : Generator) (args : list value)
  : list (Completion IteratorResult) :=
  match args with
  | [] => []
  | arg :: rest =>
      let '(c, gen') := next gen arg in
      c :: resume_all gen' rest
  end.

(** The strategy does not look at what it is resumed with. *)
Definition ignores_input (gen : Generator) : Prop :=
  forall (st : gen_state gen) (a b : value),
    gen_next gen st a = gen_next gen st b.

(** An iterator result that [getNextMove] does not accept as a move: the
    generator has returned, or the value is neither COOPERATE nor DEFECT. *)
Definition not_a_move (result : IteratorResult) : bool :=
  result_done result
  || ((result_value result !== COOPERATE) && (result_value result !== DEFECT)).

(** The number of Match objects a Tournament holds. *)
Definition match_count {World} (t : Tournament World) : nat :=
  length (concat (matches t)).

(** Bounds on the scores of a Match: each score lies between 0 and
    5 x roundLimit, their sum is at most 6 x roundLimit, and until the match
    is done the same holds with the round counter in place of roundLimit. *)
Definition score_bounds (m : Match) : Prop :=
  0 <= score1 m <= 5 * roundLimit m
  /\ 0 <= score2 m <= 5 * roundLimit m
  /\ score1 m + score2 m <= 6 * roundLimit m
  /\ (status m = done
      \/ (score1 m <= 5 * round m /\ score2 m <= 5 * round m
          /\ score1 m + score2 m <= 6 * round m)).

(** An argument of [getMatch], among the values of the embedding
    ([undefined], booleans, numbers, strings and error objects), that fails
    [Math.floor(x) === x]: [undefined], a boolean, a string, an error
    object, [NaN], or a finite number that is not an integer.  For these
    [Math.floor(x)] returns a number.  Symbols, BigInts and objects whose
    conversion to a number throws are not values of the embedding: for them
    [Math.floor] itself throws a [TypeError]. *)
Definition not_an_integer (v : value) : Prop :=
  match v with
  | VNumber (Finite q) => forall z : Z, ~ (q == inject_Z z)%Q
  | VNumber NaN => True
  | VNumber _ => False
  | _ => True
  end.

(** The generator object after it has been resumed with each of [args] in
    turn. *)
Fixpoint resumed (gen : Generator) (args : list value) : Generator :=
  match args with
  | [] => gen
  | arg :: rest => resumed (snd (next gen arg)) rest
  end.

(** The forfeit condition of the specification (section 4.2, step 3) for
    one call of [playRound] on [m]: the match is paused and a strategy that
    the call resumes terminates without producing a move, or produces a
    value that is not a move.  Player 1 is resumed first, with [lastMove2];
    player 2 is resumed, with [lastMove1], when player 1's resumption has
    returned. *)
Definition illegal_move_in_round (m : Match) : bool :=
  match status m with
  | paused =>
      match _g1 m with
      | Some g1 =>
          match fst (next g1 (lastMove2 m)) with
          | Normal r1 =>
              not_a_move r1
              || match _g2 m with
                 | Some g2 =>
                     match fst (next g2 (lastMove1 m)) with
                     | Normal r2 => not_a_move r2
                     | Throw _ => false
                     end
                 | None => false
                 end
          | Throw _ => false
          end
      | None => false
      end
  | _ => false
  end.

(** A forfeit, as the specification means it, has occurred in the life of a
    Match built by [new Match(player1, player2, rounds)] in world [w] and
    then advanced [n] times from [start]: a factory raised at construction,
    or in one of the [n] calls of [playRound] a strategy returned without a
    move or yielded a value that is not a move. *)
Definition forfeit_occurred {World} (player1 player2 : Factory World)
  (w : World) (start : Match) (n : nat) : Prop :=
  construction_forfeits player1 player2 w = true
  \/ exists k : nat,
       (k < n)%nat /\ illegal_move_in_round (playRounds k start) = true.

(** * Properties *)

(** ** The round evaluator *)

Lemma move_value_is_move (mv : Move) :
  (move_value mv !== COOPERATE) && (move_value mv !== DEFECT) = false.
Proof. destruct mv; reflexivity. Qed.

Lemma move_value_defined (mv : Move) : (move_value mv === VUndefined) = false.
Proof. destruct mv; reflexivity. Qed.

Lemma evaluate_table (a b : Move) :
  evaluate (move_value a) (move_value b) = payoff_table a b.
Proof. destruct a, b; reflexivity. Qed.

Lemma adjust_table (a b : Move) (s1 s2 : Z) :
  Legacy.adjust (move_value a) (move_value b) s1 s2
  = (s1 + fst (payoff_table a b), s2 + snd (payoff_table a b)).
Proof. destruct a, b; cbn; f_equal; lia. Qed.

(** C7 (as amended): for every pair of valid moves the two deltas of a round
    add up to 6 when both players cooperate, to 5 when exactly one of them
    defects, and to 2 when both defect; this holds for the payoff block of
    [playRound] and for the scoring of the older [play]. *)
Theorem evaluate_delta_sum (a b : Move) :
  fst (evaluate (move_value a) (move_value b))
  + snd (evaluate (move_value a) (move_value b))
  = match a, b with
    | Cooperate, Cooperate => 6
    | Defect, Defect => 2
    | _, _ => 5
    end
  /\ forall s1 s2 : Z,
       (fst (Legacy.adjust (move_value a) (move_value b) s1 s2) - s1)
       + (snd (Legacy.adjust (move_value a) (move_value b) s1 s2) - s2)
       = match a, b with
         | Cooperate, Cooperate => 6
         | Defect, Defect => 2
         | _, _ => 5
         end.
Proof.
  split.
  - rewrite evaluate_table. destruct a, b; reflexivity.
  - intros s1 s2. rewrite adjust_table. destruct a, b; cbn; lia.
Qed.

(** C7 as stated fails: the deltas of (COOPERATE, DEFECT) are 0 and 5, whose
    sum is 5, not 6, although only one player defects. *)
Lemma evaluate_delta_sum_not_six :
  ~ (forall a b : Move,
       fst (evaluate (move_value a) (move_value b))
       + snd (evaluate (move_value a) (move_value b))
       = match a, b with Defect, Defect => 2 | _, _ => 6 end).
Proof.
  intros Hall. specialize (Hall Cooperate Defect). discriminate Hall.
Qed.

(** ** One call of [playRound] *)

(** Reading a field of a Match after property assignments. *)
Ltac fields :=
  cbn [round roundLimit score1 score2 lastMove1 lastMove2 lastScore1
       lastScore2 status _g1 _g2 scoreChange1 scoreChange2 prevMove1
       prevMove2 _logError
       set_round set_score1 set_score2 set_status set_g1 set_g2
       set_scoreChange1 set_scoreChange2 set_prevMove1 set_prevMove2
       set_logError set_score set_g Z.eqb Pos.eqb Z.sub Z.add Z.opp
       Z.pos_sub Pos.pred_double Match_init] in *.

(** A paused match whose two strategies yield proper moves: the round is
    scored and the promise resolved. *)
Lemma playRound_proper_moves
  (self : Match) (g1 g2 g1' g2' : Generator) (a b : Move) :
  status self = paused ->
  _g1 self = Some g1 ->
  _g2 self = Some g2 ->
  next g1 (lastMove2 self) = (yields (move_value a), g1') ->
  next g2 (lastMove1 self) = (yields (move_value b), g2') ->
  playRound self
  = (Normal Resolved,
     scoreRound (move_value a) (move_value b)
       (set_g2 (Some g2') (set_g1 (Some g1') (set_status running self)))).
Proof.
  intros Hst H1 H2 N1 N2.
  unfold playRound, bind, get. rewrite Hst. cbn [Status_eqb].
  unfold modify, new_Promise, playRound_executor, roundMoves, bind, get.
  fields. rewrite H1. unfold getNextMove. rewrite N1.
  unfold bind, modify, yields. cbn [result_done result_value].
  rewrite (move_value_is_move a). unfold ret.
  fields. rewrite H2, N2. unfold yields. cbn [result_done result_value].
  rewrite (move_value_is_move b).
  rewrite !move_value_defined. reflexivity.
Qed.

Lemma strict_eq_string (v : value) (s : string) :
  (v === VString s) = true -> v = VString s.
Proof.
  destruct v; cbn; try discriminate.
  intros H. apply String.eqb_eq in H. now subst.
Qed.

Lemma same_fields_refl (m : Match) : same_fields m m.
Proof. repeat split. Qed.

Lemma same_fields_trans (m1 m2 m3 : Match) :
  same_fields m1 m2 -> same_fields m2 m3 -> same_fields m1 m3.
Proof.
  unfold same_fields. intros (?&?&?&?&?&?&?&?) (?&?&?&?&?&?&?&?).
  repeat split; congruence.
Qed.

Lemma logError_same_fields (err : value) (m : Match) :
  snd (logError err m) = m.
Proof. unfold logError. destruct (_logError m); reflexivity. Qed.

(** [getNextMove] changes nothing but the generator slot, and what it
    returns is a proper move or [undefined]. *)
Lemma getNextMove_frame (name : Z) (gen : option Generator) (arg : value)
  (m : Match) :
  same_fields m (snd (getNextMove name gen arg m))
  /\ match fst (getNextMove name gen arg m) with
     | Normal v => move_or_undefined v
     | Throw _ => True
     end.
Proof.
  assert (G : forall g, same_fields m (set_g name g m)).
  { intros g. unfold set_g.
    destruct (name =? 1); [repeat split|].
    destruct (name =? 2); repeat split. }
  unfold getNextMove. destruct gen as [g|]; [|cbn; split; [apply same_fields_refl|exact I]].
  destruct (next g arg) as [[result|exc] g']; unfold bind, modify, throw, ret.
  2:{ cbn. split; [apply G|exact I]. }
  destruct (result_done result).
  - pose proof (logError_same_fields
      (Error ("Player " ++ decimal name ++ " returned without yielding!"))
      (set_g name g' m)) as L.
    destruct (logError _ (set_g name g' m)) as [[[]|exc] m']; cbn in L |- *;
      subst m'; (split; [apply G|]); [now left|exact I].
  - destruct (result_value result === COOPERATE) eqn:EC; cbn [negb andb].
    + cbn. split; [apply G|]. right; left. now apply strict_eq_string.
    + destruct (result_value result === DEFECT) eqn:ED; cbn [negb].
      * cbn. split; [apply G|]. right; right. now apply strict_eq_string.
      * pose proof (logError_same_fields
          (Error ("Player " ++ decimal name
             ++ " made an illegal move (please yield COOPERATE or DEFECT)"))
          (set_g name g' m)) as L.
        destruct (logError _ (set_g name g' m)) as [[[]|exc] m']; cbn in L |- *;
          subst m'; (split; [apply G|]); [now left|exact I].
Qed.

Lemma roundMoves_frame (m : Match) :
  same_fields m (snd (roundMoves m))
  /\ match fst (roundMoves m) with
     | Normal (move1, move2) =>
         move_or_undefined move1 /\ move_or_undefined move2
     | Throw _ => True
     end.
Proof.
  unfold roundMoves, bind, get.
  pose proof (getNextMove_frame 1 (_g1 m) (lastMove2 m) m) as [F1 V1].
  destruct (getNextMove 1 (_g1 m) (lastMove2 m) m) as [[move1|exc] m1];
    cbn [fst snd] in *; [|split; [exact F1|exact I]].
  pose proof (getNextMove_frame 2 (_g2 m1) (lastMove1 m1) m1) as [F2 V2].
  destruct (getNextMove 2 (_g2 m1) (lastMove1 m1) m1) as [[move2|exc] m2];
    cbn [fst snd ret] in *.
  - split; [eapply same_fields_trans; eassumption|now split].
  - split; [eapply same_fields_trans; eassumption|exact I].
Qed.

(** [playRound] on a paused match, in terms of the moves of the round. *)
Lemma playRound_paused (m : Match) :
  status m = paused ->
  playRound m
  = match roundMoves (set_status running m) with
    | (Throw exc, m') => (Normal (Rejected exc), m')
    | (Normal (move1, move2), m') =>
        (Normal Resolved,
         if (move1 === VUndefined) || (move2 === VUndefined)
         then forfeitRound move1 move2 m'
         else scoreRound move1 move2 m')
    end.
Proof.
  intros Hst. unfold playRound, bind, get. rewrite Hst. cbn [Status_eqb].
  unfold modify, new_Promise, playRound_executor, bind.
  destruct (roundMoves (set_status running m)) as [[[move1 move2]|exc] m'];
    [|reflexivity].
  destruct ((move1 === VUndefined) || (move2 === VUndefined)); reflexivity.
Qed.

(** [playRound] on a match that is running or done: it throws, and the
    match is as it was. *)
Lemma playRound_not_paused (m : Match) :
  status m <> paused ->
  exists message, playRound m = (Throw (Error message), m).
Proof.
  intros Hst. unfold playRound, bind, get, throw.
  destruct (status m); [congruence| |]; cbn [Status_eqb]; eexists; reflexivity.
Qed.

Lemma playRound_done (m : Match) :
  status m = done ->
  playRound m
  = (Throw (Error "Dilemma.Match.playRound: The match is already over."), m).
Proof.
  intros Hst. unfold playRound, bind, get, throw. now rewrite Hst.
Qed.

Lemma playRound_running (m : Match) :
  status m = running ->
  playRound m
  = (Throw (Error "Dilemma.Match.playRound: The match is already running."), m).
Proof.
  intros Hst. unfold playRound, bind, get, throw. now rewrite Hst.
Qed.

(** C6: a round in which both strategies yield valid moves is scored by the
    fixed payoff table, (COOPERATE, COOPERATE) giving (3, 3),
    (COOPERATE, DEFECT) giving (0, 5), (DEFECT, COOPERATE) giving (5, 0) and
    (DEFECT, DEFECT) giving (1, 1): the payoff block of [playRound] and the
    scoring of the older [play] are total functions of the two moves with
    exactly these values, and a call of [playRound] on a paused match whose
    strategies yield the moves [a] and [b] resolves with [scoreChange1] and
    [scoreChange2] set to the table's deltas and each score increased by
    its delta. *)
Theorem round_scored_by_payoff_table
  (self : Match) (g1 g2 g1' g2' : Generator) (a b : Move) :
  status self = paused ->
  _g1 self = Some g1 ->
  _g2 self = Some g2 ->
  next g1 (lastMove2 self) = (yields (move_value a), g1') ->
  next g2 (lastMove1 self) = (yields (move_value b), g2') ->
  (evaluate COOPERATE COOPERATE = (3, 3)
   /\ evaluate COOPERATE DEFECT = (0, 5)
   /\ evaluate DEFECT COOPERATE = (5, 0)
   /\ evaluate DEFECT DEFECT = (1, 1))
  /\ (forall s1 s2 : Z,
        Legacy.adjust COOPERATE COOPERATE s1 s2 = (s1 + 3, s2 + 3)
        /\ Legacy.adjust COOPERATE DEFECT s1 s2 = (s1, s2 + 5)
        /\ Legacy.adjust DEFECT COOPERATE s1 s2 = (s1 + 5, s2)
        /\ Legacy.adjust DEFECT DEFECT s1 s2 = (s1 + 1, s2 + 1))
  /\ exists self' : Match,
       playRound self = (Normal Resolved, self')
       /\ scoreChange1 self' = Some (fst (payoff_table a b))
       /\ scoreChange2 self' = Some (snd (payoff_table a b))
       /\ score1 self' = score1 self + fst (payoff_table a b)
       /\ score2 self' = score2 self + snd (payoff_table a b)
       /\ round self' = round self + 1.
Proof.
  intros Hst H1 H2 N1 N2.
  split; [repeat split|]. split; [intros; repeat split|].
  eexists. split.
  - eapply playRound_proper_moves; eassumption.
  - unfold scoreRound. rewrite evaluate_table.
    destruct (payoff_table a b) as [d1 d2]. repeat split.
Qed.

(** A concrete round: always-cooperate against always-defect, first
    round, scored (0, 5). *)
Lemma round_scored_by_payoff_table_witness :
  exists self' : Match,
    playRound (constructed (Match_new (factory_of goodGuyGreg_gen)
                              (factory_of scumbagSteve_gen) 3 0%nat))
    = (Normal Resolved, self')
    /\ score1 self' = 0 /\ score2 self' = 5.
Proof.
  destruct (round_scored_by_payoff_table
              (constructed (Match_new (factory_of goodGuyGreg_gen)
                              (factory_of scumbagSteve_gen) 3 0%nat))
              goodGuyGreg_gen scumbagSteve_gen goodGuyGreg_gen
              scumbagSteve_gen Cooperate Defect
              eq_refl eq_refl eq_refl eq_refl eq_refl)
    as (_ & _ & self' & P & _ & _ & S1 & S2 & _).
  exists self'. split; [exact P|]. split; [exact S1|exact S2].
Defined.

(** ** Construction *)

Section ConstructionFacts.

Context {World : Type}.
Variables player1 player2 : Factory World.
Variable rounds : Z.

Lemma Match_new_first_raises (w w1 : World) (exc : value) :
  player1 w = (Throw exc, w1) ->
  Match_new player1 player2 rounds w
  = (Normal (set_score2 (rounds * 5) (set_status done (Match_init rounds))), w1).
Proof.
  intros P1. unfold Match_new, setupMatchPlayer, bind, try_catch, ret.
  now rewrite P1.
Qed.

Lemma Match_new_second_raises (w w1 w2 : World) (gen : Generator)
  (exc : value) :
  player1 w = (Normal gen, w1) ->
  player2 w1 = (Throw exc, w2) ->
  Match_new player1 player2 rounds w
  = (Normal (set_score1 (rounds * 5)
               (set_status done (set_g1 (Some gen) (Match_init rounds)))), w2).
Proof.
  intros P1 P2. unfold Match_new, setupMatchPlayer, bind, try_catch, ret.
  rewrite P1. cbn [set_g Z.eqb Pos.eqb snd]. now rewrite P2.
Qed.

Lemma Match_new_both_made (w w1 w2 : World) (gen1 gen2 : Generator) :
  player1 w = (Normal gen1, w1) ->
  player2 w1 = (Normal gen2, w2) ->
  Match_new player1 player2 rounds w
  = (Normal (set_g2 (Some gen2) (set_g1 (Some gen1) (Match_init rounds))), w2).
Proof.
  intros P1 P2. unfold Match_new, setupMatchPlayer, bind, try_catch, ret.
  rewrite P1. cbn [set_g Z.eqb Pos.eqb snd]. now rewrite P2.
Qed.

(** The constructor never throws, whatever the factories do. *)
Lemma Match_new_returns (w : World) :
  exists (m : Match) (w' : World),
    Match_new player1 player2 rounds w = (Normal m, w').
Proof.
  destruct (player1 w) as [[gen1|exc1] w1] eqn:P1.
  - destruct (player2 w1) as [[gen2|exc2] w2] eqn:P2.
    + erewrite Match_new_both_made by eassumption. eauto.
    + erewrite Match_new_second_raises by eassumption. eauto.
  - erewrite Match_new_first_raises by eassumption. eauto.
Qed.

(** What construction leaves in the fields the invariants speak of. *)
Lemma Match_new_fields (w : World) :
  let m := constructed (Match_new player1 player2 rounds w) in
  roundLimit m = rounds /\ round m = 0
  /\ lastMove1 m = VUndefined /\ lastMove2 m = VUndefined
  /\ _logError m = None
  /\ (0 <= rounds -> 0 <= score1 m /\ 0 <= score2 m)
  /\ (status m = if construction_forfeits player1 player2 w
                 then done else paused).
Proof.
  unfold construction_forfeits.
  destruct (player1 w) as [[gen1|exc1] w1] eqn:P1.
  - destruct (player2 w1) as [[gen2|exc2] w2] eqn:P2.
    + erewrite Match_new_both_made by eassumption. cbn.
      repeat split; lia.
    + erewrite Match_new_second_raises by eassumption. cbn -[Z.mul].
      repeat split; lia.
  - erewrite Match_new_first_raises by eassumption. cbn -[Z.mul].
    repeat split; lia.
Qed.

(** C4: if a strategy factory raises during Match construction (side [n],
    the other side being [3 - n]), the constructor still returns a Match and
    throws nothing; that Match is done, the other player's score is
    5 x roundLimit and the failing side's score is 0; the scores are there
    with no round played (round counter 0), and the match is terminal: a
    round-advance on it is refused and leaves it as it is. *)
Theorem factory_failure_forfeits (w w' : World) (n : Z) :
  raises_in_construction player1 player2 w n w' ->
  exists m : Match,
    Match_new player1 player2 rounds w = (Normal m, w')
    /\ status m = done
    /\ roundLimit m = rounds
    /\ get_score (3 - n) m = 5 * roundLimit m
    /\ get_score n m = 0
    /\ round m = 0
    /\ playRound m
       = (Throw (Error "Dilemma.Match.playRound: The match is already over."),
          m).
Proof.
  intros [exc w1 P1 | gen w1 exc w2 P1 P2].
  - eexists. split; [eapply Match_new_first_raises; eassumption|].
    cbn -[Z.mul]. repeat split; lia.
  - eexists. split; [eapply Match_new_second_raises; eassumption|].
    cbn -[Z.mul]. repeat split; lia.
Qed.

(** C10: if player 1's factory fails during construction, player 2's factory
    is not called: the world is left exactly as the failing call of player
    1's factory left it, the constructor returns the same Match whatever the
    second factory is (one that would fail too, or one that would change the
    world), no generator is stored for either side, and the Match is done
    with score2 = 5 x roundLimit and score1 = 0. *)
Theorem first_factory_failure_skips_second (w w1 : World) (exc : value) :
  player1 w = (Throw exc, w1) ->
  (exists m : Match,
     Match_new player1 player2 rounds w = (Normal m, w1)
     /\ status m = done
     /\ roundLimit m = rounds
     /\ score2 m = 5 * roundLimit m
     /\ score1 m = 0
     /\ _g1 m = None /\ _g2 m = None)
  /\ forall other : Factory World,
       Match_new player1 other rounds w = Match_new player1 player2 rounds w.
Proof.
  intros P1. split.
  - eexists. split; [eapply Match_new_first_raises; eassumption|].
    cbn -[Z.mul]. repeat split; lia.
  - intros other. unfold Match_new, setupMatchPlayer, bind, try_catch, ret.
    now rewrite P1.
Qed.

End ConstructionFacts.

(** A concrete construction: always-cooperate against a factory that
    raises; the second call fails, so side 2 forfeits and player 1 gets
    5 x 3. *)
Lemma factory_failure_forfeits_witness :
  exists m : Match,
    Match_new (factory_of goodGuyGreg_gen) failing_factory 3 0%nat
    = (Normal m, 2%nat)
    /\ status m = done /\ score1 m = 15 /\ score2 m = 0.
Proof.
  destruct (factory_failure_forfeits (factory_of goodGuyGreg_gen)
              failing_factory 3 0%nat 2%nat 2
              (second_raises _ _ _ goodGuyGreg_gen 1%nat
                 (Error "no strategy") 2%nat eq_refl eq_refl))
    as (m & C & St & L & S1 & S2 & _).
  exists m. split; [exact C|]. split; [exact St|].
  rewrite L in S1. split; [exact S1|exact S2].
Defined.

(** A concrete construction: both factories would raise; the world counts
    one factory call, not two. *)
Lemma first_factory_failure_skips_second_witness :
  exists m : Match,
    Match_new failing_factory failing_factory 3 0%nat = (Normal m, 1%nat)
    /\ status m = done /\ score2 m = 15 /\ score1 m = 0.
Proof.
  destruct (first_factory_failure_skips_second failing_factory
              failing_factory 3 0%nat 1%nat (Error "no strategy") eq_refl)
    as ((m & C & St & L & S2 & S1 & _) & _).
  exists m. split; [exact C|]. split; [exact St|].
  rewrite L in S2. split; [exact S2|exact S1].
Defined.

(** ** Sequences of round-advances *)

Lemma playRounds_succ (n : nat) (m : Match) :
  playRounds (S n) m = snd (playRound (playRounds n m)).
Proof.
  revert m. induction n as [|n IH]; intros m; [reflexivity|].
  change (playRounds (S (S n)) m) with (playRounds (S n) (snd (playRound m))).
  now rewrite IH.
Qed.

Lemma proper_move_cases (v : value) :
  move_or_undefined v -> (v === VUndefined) = false ->
  v = COOPERATE \/ v = DEFECT.
Proof. intros [-> | [-> | ->]] H; [discriminate H|now left|now right]. Qed.

Ltac settle :=
  first [ lia | congruence | tauto
        | intuition (first [lia | congruence | discriminate]) ].

(** One round-advance keeps the invariant of the Match: [P] stands for "the
    forfeit code has run before this call". *)
Lemma playRound_step (m : Match) (P : Prop) :
  round m <= roundLimit m ->
  (status m = done <-> round m = roundLimit m \/ P) ->
  let m' := snd (playRound m) in
  roundLimit m' = roundLimit m
  /\ _logError m' = _logError m
  /\ round m' <= roundLimit m'
  /\ (status m' = done
      <-> round m' = roundLimit m' \/ (P \/ takes_forfeit_block m = true))
  /\ score1 m <= score1 m' /\ score2 m <= score2 m'.
Proof.
  intros Hle Hiff. destruct (status m) eqn:Hst.
  - assert (Hlt : round m < roundLimit m /\ ~ P).
    { split.
      - destruct (Z.eq_dec (round m) (roundLimit m)) as [E|E]; [|lia].
        assert (D : paused = done) by (apply Hiff; now left). discriminate D.
      - intros HP. assert (D : paused = done) by (apply Hiff; now right).
        discriminate D. }
    destruct Hlt as [Hlt HnP].
    unfold takes_forfeit_block. rewrite Hst, (playRound_paused m Hst).
    pose proof (roundMoves_frame (set_status running m)) as [F V].
    destruct (roundMoves (set_status running m)) as [[[move1 move2]|exc] m1];
      cbn [fst snd] in *;
      destruct F as (Fr & Fl & F1 & F2 & Fs & _ & _ & Fe); fields.
    + destruct V as [V1 V2].
      destruct ((move1 === VUndefined) || (move2 === VUndefined)) eqn:U.
      * unfold forfeitRound. fields. rewrite Fr, Fl, F1, F2, Fe.
        destruct (move1 === VUndefined), (move2 === VUndefined);
          repeat split; settle.
      * apply orb_false_iff in U. destruct U as [U1 U2].
        assert (D : 0 <= fst (evaluate move1 move2)
                    /\ 0 <= snd (evaluate move1 move2)).
        { destruct (proper_move_cases move1 V1 U1) as [-> | ->],
                   (proper_move_cases move2 V2 U2) as [-> | ->];
            cbn; lia. }
        unfold scoreRound. destruct (evaluate move1 move2) as [d1 d2].
        cbn [fst snd] in D. fields. rewrite Fr, Fl, F1, F2, Fe.
        destruct (round m + 1 >=? roundLimit m) eqn:G;
          [apply Z.geb_le in G|rewrite Z.geb_leb in G; apply Z.leb_gt in G];
          repeat split; settle.
    + rewrite Fr, Fl, F1, F2, Fs, Fe. repeat split; settle.
  - destruct (playRound_not_paused m) as [msg ->]; [congruence|].
    unfold takes_forfeit_block. rewrite Hst in *. cbn [snd].
    repeat split; settle.
  - destruct (playRound_not_paused m) as [msg ->]; [congruence|].
    unfold takes_forfeit_block. rewrite Hst in *. cbn [snd].
    repeat split; settle.
Qed.

Lemma playRounds_add (a b : nat) (m : Match) :
  playRounds (a + b) m = playRounds b (playRounds a m).
Proof.
  revert m. induction a as [|a IH]; intros m; [reflexivity|].
  cbn [Nat.add playRounds]. apply IH.
Qed.

Section Invariants.

Context {World : Type}.
Variables player1 player2 : Factory World.
Variable rounds : Z.
Variable w : World.
Variable log : option (value -> Completion unit).
Hypothesis rounds_positive : 0 < rounds.

Local Abbreviation start :=
  (set_logError log (constructed (Match_new player1 player2 rounds w))).

Lemma forfeit_block_ran_succ (n : nat) :
  forfeit_block_ran player1 player2 w start (S n)
  <-> forfeit_block_ran player1 player2 w start n
      \/ takes_forfeit_block (playRounds n start) = true.
Proof.
  unfold forfeit_block_ran. split.
  - intros [C|(k & Hk & R)]; [now left; left|].
    destruct (Nat.eq_dec k n) as [->|Hne]; [now right|].
    left; right. exists k. split; [lia|exact R].
  - intros [[C|(k & Hk & R)]|R]; [now left| |].
    + right. exists k. split; [lia|exact R].
    + right. exists n. split; [lia|exact R].
Qed.

Lemma reachable_invariant (n : nat) :
  roundLimit (playRounds n start) = rounds
  /\ round (playRounds n start) <= roundLimit (playRounds n start)
  /\ (status (playRounds n start) = done
      <-> round (playRounds n start) = roundLimit (playRounds n start)
          \/ forfeit_block_ran player1 player2 w start n).
Proof.
  induction n as [|n (IL & IR & II)].
  - pose proof (Match_new_fields player1 player2 rounds w)
      as (L & R & _ & _ & _ & _ & St).
    cbn [playRounds]. unfold forfeit_block_ran. fields.
    rewrite L, R, St. split; [reflexivity|]. split; [lia|].
    destruct (construction_forfeits player1 player2 w).
    + split; [intros _; right; now left|reflexivity].
    + split; [intros D; discriminate D|].
      intros [H|[H|(k & Hk & _)]]; [lia|discriminate H|lia].
  - pose proof (playRound_step (playRounds n start)
                  (forfeit_block_ran player1 player2 w start n) IR II)
      as (SL & _ & SR & SI & _).
    rewrite playRounds_succ. split; [congruence|]. split; [exact SR|].
    rewrite SI. now rewrite forfeit_block_ran_succ.
Qed.

Lemma scores_step (n : nat) :
  score1 (playRounds n start) <= score1 (playRounds (S n) start)
  /\ score2 (playRounds n start) <= score2 (playRounds (S n) start).
Proof.
  destruct (reachable_invariant n) as (_ & IR & II).
  pose proof (playRound_step (playRounds n start)
                (forfeit_block_ran player1 player2 w start n) IR II)
    as (_ & _ & _ & _ & S1 & S2).
  rewrite playRounds_succ. now split.
Qed.

(** On a Match constructed with a positive roundLimit (with or without a
    logger), after any number of round-advances the round counter does not
    exceed roundLimit, and the scores never decrease, from their initial 0
    through construction and every later round-advance. *)
Lemma round_and_scores_monotone (n : nat) :
  round (playRounds n start) <= roundLimit (playRounds n start)
  /\ (0 <= score1 start /\ 0 <= score2 start)
  /\ forall k : nat,
       score1 (playRounds n start) <= score1 (playRounds (n + k) start)
       /\ score2 (playRounds n start) <= score2 (playRounds (n + k) start).
Proof.
  destruct (reachable_invariant n) as (_ & IR & _).
  split; [exact IR|]. split.
  - pose proof (Match_new_fields player1 player2 rounds w)
      as (_ & _ & _ & _ & _ & Sc & _).
    fields. apply Sc. lia.
  - induction k as [|k [I1 I2]].
    + rewrite Nat.add_0_r. split; lia.
    + rewrite Nat.add_succ_r.
      destruct (scores_step (n + k)) as [S1 S2]. split; lia.
Qed.

End Invariants.

(** ** What the strategies are resumed with *)

Lemma playRound_lastMove (m : Match) :
  lastMove1 (snd (playRound m)) = lastMove1 m
  /\ lastMove2 (snd (playRound m)) = lastMove2 m.
Proof.
  destruct (status m) eqn:Hst.
  - rewrite (playRound_paused m Hst).
    pose proof (roundMoves_frame (set_status running m)) as [F _].
    destruct (roundMoves (set_status running m)) as [[[move1 move2]|exc] m1];
      cbn [fst snd] in *;
      destruct F as (_ & _ & _ & _ & _ & L1 & L2 & _); fields.
    + destruct ((move1 === VUndefined) || (move2 === VUndefined)).
      * unfold forfeitRound. fields. now split.
      * unfold scoreRound. destruct (evaluate move1 move2). fields. now split.
    + now split.
  - rewrite (playRound_running m Hst). now split.
  - rewrite (playRound_done m Hst). now split.
Qed.

(** No call of [playRound] ever assigns [lastMove1] or [lastMove2] (the
    moves of a round go to [prevMove1] and [prevMove2]): on a Match built by
    the constructor both stay [undefined], so every resumption of every
    round is given [undefined]. *)
Lemma lastMove_stays_undefined {World} (player1 player2 : Factory World)
  (rounds : Z) (w : World) (n : nat) :
  lastMove1 (playRounds n (constructed (Match_new player1 player2 rounds w)))
  = VUndefined
  /\ lastMove2 (playRounds n (constructed (Match_new player1 player2 rounds w)))
     = VUndefined.
Proof.
  induction n as [|n [I1 I2]].
  - pose proof (Match_new_fields player1 player2 rounds w)
      as (_ & _ & L1 & L2 & _). now split.
  - rewrite playRounds_succ.
    destruct (playRound_lastMove
                (playRounds n (constructed (Match_new player1 player2 rounds w))))
      as [S1 S2].
    split; congruence.
Qed.

(** C1, the code at a failing input: a strategy that records what it is
    resumed with, against [HighExpectationsAsianFather], over 3 rounds, has
    seen [undefined] at both resumptions after the first (the
    specification: COOPERATE twice, the opponent's previous moves); and
    [HighExpectationsAsianFather] against [goodGuyGreg] over 2 rounds ends
    (8, 3), because the father, resumed with [undefined] in the second
    round, stops cooperating, where the older [play], which does pass the
    previous moves, ends (6, 6). *)
Theorem resumes_never_get_previous_move :
  _g1 (playRounds 3
         (constructed (Match_new (factory_of recorder_gen)
                         (factory_of HighExpectationsAsianFather_gen) 3 0%nat)))
  = Some (mkGenerator (option (list value)) (Some [VUndefined; VUndefined])
            (gen_next recorder_gen))
  /\ public_state
       (playRounds 2
          (constructed (Match_new (factory_of HighExpectationsAsianFather_gen)
                          (factory_of goodGuyGreg_gen) 2 0%nat)))
     = (done, 8, 3, 2)
  /\ fst (Legacy.play (factory_of HighExpectationsAsianFather_gen)
            (factory_of goodGuyGreg_gen) 2 0%nat)
     = Normal (6, 6).
Proof. repeat split. Qed.

(** ** Strategies that misbehave in a round *)

(** With no [_logError] on the Match, a strategy that returns without
    yielding, or yields something that is not a move, makes [getNextMove]
    throw a [TypeError]. *)
Lemma getNextMove_without_logger (name : Z) (g g' : Generator) (arg : value)
  (result : IteratorResult) (m : Match) :
  _logError m = None ->
  (name = 1 \/ name = 2) ->
  next g arg = (Normal result, g') ->
  result_done result = true
  \/ (result_value result !== COOPERATE) && (result_value result !== DEFECT)
     = true ->
  getNextMove name (Some g) arg m
  = (Throw (TypeError "match._logError is not a function"), set_g name g' m).
Proof.
  intros L Hn N B. unfold getNextMove. rewrite N.
  unfold bind, modify, logError.
  assert (L' : _logError (set_g name g' m) = None)
    by (destruct Hn as [-> | ->]; exact L).
  destruct (result_done result).
  - now rewrite L'.
  - destruct B as [B|B]; [discriminate B|]. rewrite B. now rewrite L'.
Qed.

(** With a logger on the Match that returns normally, the same strategy
    makes [getNextMove] return [undefined]. *)
Lemma getNextMove_with_logger (name : Z) (g g' : Generator) (arg : value)
  (result : IteratorResult) (m : Match) (log : value -> Completion unit) :
  _logError m = Some log ->
  (forall err, log err = Normal tt) ->
  (name = 1 \/ name = 2) ->
  next g arg = (Normal result, g') ->
  result_done result = true
  \/ (result_value result !== COOPERATE) && (result_value result !== DEFECT)
     = true ->
  getNextMove name (Some g) arg m = (Normal VUndefined, set_g name g' m).
Proof.
  intros L T Hn N B. unfold getNextMove. rewrite N.
  unfold bind, modify, logError, ret.
  assert (L' : _logError (set_g name g' m) = Some log)
    by (destruct Hn as [-> | ->]; exact L).
  destruct (result_done result).
  - now rewrite L', T.
  - destruct B as [B|B]; [discriminate B|]. rewrite B. now rewrite L', T.
Qed.

(** The forfeit block, once [getNextMove] has returned [undefined] for a
    side: the match is done at once, the side with an undefined move gets
    0, a side with a proper move gets 5 x (roundLimit - round). *)
Lemma playRound_forfeit (m m1 : Match) (move1 move2 : value) :
  status m = paused ->
  roundMoves (set_status running m) = (Normal (move1, move2), m1) ->
  (move1 === VUndefined) || (move2 === VUndefined) = true ->
  exists m' : Match,
    playRound m = (Normal Resolved, m')
    /\ status m' = done
    /\ round m' = round m
    /\ score1 m' = score1 m
                   + (if move1 === VUndefined then 0
                      else 5 * (roundLimit m - round m))
    /\ score2 m' = score2 m
                   + (if move2 === VUndefined then 0
                      else 5 * (roundLimit m - round m)).
Proof.
  intros Hst R U. rewrite (playRound_paused m Hst).
  pose proof (roundMoves_frame (set_status running m)) as [F _].
  rewrite R in *. cbn [fst snd] in F. rewrite U.
  destruct F as (Fr & Fl & F1 & F2 & _). fields.
  eexists. split; [reflexivity|]. unfold forfeitRound. fields.
  rewrite Fr, Fl, F1, F2. repeat split.
Qed.

(** A strategy whose resumption raises: the promise is rejected with what
    the strategy threw and the match stays [running]. *)
Lemma playRound_strategy_raises (m : Match) (g g' : Generator) (exc : value) :
  status m = paused ->
  _g1 m = Some g ->
  next g (lastMove2 m) = (Throw exc, g') ->
  playRound m
  = (Normal (Rejected exc), set_g1 (Some g') (set_status running m)).
Proof.
  intros Hst G N. rewrite (playRound_paused m Hst).
  unfold roundMoves, bind, get. fields. rewrite G.
  unfold getNextMove. rewrite N. reflexivity.
Qed.

(** C3, the code at a failing input: [function* () {}] (returns without
    yielding) against [goodGuyGreg] over 3 rounds, and a strategy yielding
    ["MAYBE"] against [goodGuyGreg].  The first [playRound] returns a
    promise rejected with the [TypeError] of the call of the missing
    [_logError]; the match is left [running] with scores (0, 0), not [done]
    with (0, 15), and every later [playRound] throws "already running". *)
Theorem misbehaving_strategy_rejects_round :
  playRound (constructed (Match_new (factory_of quitter_gen)
                            (factory_of goodGuyGreg_gen) 3 0%nat))
  = (Normal (Rejected (TypeError "match._logError is not a function")),
     set_status running
       (constructed (Match_new (factory_of quitter_gen)
                       (factory_of goodGuyGreg_gen) 3 0%nat)))
  /\ public_state
       (playRounds 1 (constructed (Match_new (factory_of quitter_gen)
                                     (factory_of goodGuyGreg_gen) 3 0%nat)))
     = (running, 0, 0, 0)
  /\ fst (playRound
            (playRounds 1 (constructed (Match_new (factory_of quitter_gen)
                                          (factory_of goodGuyGreg_gen) 3 0%nat))))
     = Throw (Error "Dilemma.Match.playRound: The match is already running.")
  /\ fst (playRound (constructed (Match_new (factory_of goodGuyGreg_gen)
                                    (factory_of illegal_gen) 3 0%nat)))
     = Normal (Rejected (TypeError "match._logError is not a function"))
  /\ public_state
       (playRounds 1 (constructed (Match_new (factory_of goodGuyGreg_gen)
                                     (factory_of illegal_gen) 3 0%nat)))
     = (running, 0, 0, 0).
Proof. repeat split. Qed.

(** C5, the code at a failing input: a strategy whose first resumption
    raises, against [goodGuyGreg] over 3 rounds, with or without a logger on
    the Match.  The promise [playRound] returns is rejected with the
    strategy's own exception; the public state goes from
    (paused, 0, 0, 0) to (running, 0, 0, 0), neither unchanged nor a
    committed forfeit (done, 0, 15, 0); the match then refuses every
    round-advance. *)
Theorem raising_strategy_is_not_absorbed :
  forall log : option (value -> Completion unit),
    let m := set_logError log
               (constructed (Match_new (factory_of thrower_gen)
                               (factory_of goodGuyGreg_gen) 3 0%nat)) in
    fst (playRound m) = Normal (Rejected (Error "boom"))
    /\ public_state m = (paused, 0, 0, 0)
    /\ public_state (snd (playRound m)) = (running, 0, 0, 0)
    /\ fst (playRound (snd (playRound m)))
       = Throw (Error "Dilemma.Match.playRound: The match is already running.").
Proof. intros log. repeat split. Qed.

(** ** Tournament *)

(** A loop whose body never throws builds one element per index, each
    related to its index by whatever the body guarantees. *)
Lemma mapM_Forall2 {S A B} (f : A -> Exec S B) (Q : A -> B -> Prop) :
  (forall x s, exists y s', f x s = (Normal y, s') /\ Q x y) ->
  forall (l : list A) (s : S),
  exists ys s', mapM f l s = (Normal ys, s') /\ Forall2 Q l ys.
Proof.
  intros Hf l. induction l as [|x rest IH]; intros s.
  - exists [], s. split; [reflexivity|constructor].
  - destruct (Hf x s) as (y & s1 & Fx & Qx).
    destruct (IH s1) as (ys & s2 & Frest & Qrest).
    exists (y :: ys), s2. split; [|now constructor].
    cbn [mapM]. unfold bind. rewrite Fx, Frest. reflexivity.
Qed.

Lemma Forall2_seq_nth {B} (Q : nat -> B -> Prop) (ys : list B) :
  forall (a n : nat),
  Forall2 Q (seq a n) ys ->
  length ys = n
  /\ forall i, (i < n)%nat -> exists y, nth_error ys i = Some y /\ Q (a + i)%nat y.
Proof.
  induction ys as [|y ys IH]; intros a n H.
  - destruct n; inversion H. split; [reflexivity|intros i Hi; lia].
  - destruct n as [|n]; inversion H; subst.
    destruct (IH (S a) n) as [L N]; [assumption|].
    split; [cbn; now rewrite L|].
    intros [|i] Hi.
    + exists y. rewrite Nat.add_0_r. now split.
    + destruct (N i) as (y' & E & Qy); [lia|].
      exists y'. split; [exact E|]. now rewrite Nat.add_succ_r.
Qed.

Section TournamentFacts.

Context {World : Type}.
Variable ps : list (Factory World).
Variable rounds : Z.
Variable w : World.

Local Abbreviation t := (constructed_tournament (Tournament_new ps rounds w)).

(** The constructor never throws, keeps the roster, and builds the
    triangular grid: one row per roster entry, row [i] holding [i]
    Matches. *)
Lemma Tournament_new_grid :
  (exists w', Tournament_new ps rounds w = (Normal t, w'))
  /\ players t = ps
  /\ length (matches t) = length ps
  /\ forall i, (i < length ps)%nat ->
       exists row, nth_error (matches t) i = Some row
                   /\ length row = i
                   /\ forall j, (j < i)%nat ->
                        exists m, nth_error row j = Some m.
Proof.
  unfold Tournament_new, bind, ret.
  destruct (mapM_Forall2
              (fun i => mapM (fun j => Match_new (player_at World ps i)
                                         (player_at World ps j) rounds)
                          (seq 0 i))
              (fun i row => length row = i
                            /\ forall j, (j < i)%nat ->
                                 exists m : Match, nth_error row j = Some m))
    with (l := seq 0 (length ps)) (s := w) as (rows & w' & E & F).
  - intros i s.
    destruct (mapM_Forall2
                (fun j => Match_new (player_at World ps i)
                            (player_at World ps j) rounds)
                (fun (_ : nat) (_ : Match) => True))
      with (l := seq 0 i) (s := s) as (row & s' & Er & Fr).
    + intros j s0.
      destruct (Match_new_returns (player_at World ps i)
                  (player_at World ps j) rounds s0) as (m & s1 & Em).
      exists m, s1. now split.
    + exists row, s'. split; [exact Er|].
      apply Forall2_seq_nth in Fr. destruct Fr as [L N].
      split; [exact L|]. intros j Hj.
      destruct (N j Hj) as (m & Em & _). now exists m.
  - rewrite E. cbn [constructed_tournament players matches].
    apply Forall2_seq_nth in F. destruct F as [L N].
    split; [now exists w'|]. split; [reflexivity|]. split; [exact L|].
    intros i Hi. destruct (N i Hi) as (row & Erow & Lrow & Mrow).
    exists row. now repeat split.
Qed.

End TournamentFacts.

Lemma Qle_bool_inject_Z (a b : Z) :
  Qle_bool (inject_Z a) (inject_Z b) = (a <=? b).
Proof. unfold Qle_bool. cbn. now rewrite !Z.mul_1_r. Qed.

(** [getMatch] on two integers: the guard rejects [i1 >= N] and
    [i2 >= i1] and nothing else; a negative index then reads a property the
    array does not have. *)
Lemma getMatch_integers {World} (t : Tournament World) (z1 z2 : Z) :
  getMatch t (VNumber (number_of_Z z1)) (VNumber (number_of_Z z2))
  = if (Z.of_nat (length (players t)) <=? z1) || (z1 <=? z2)
    then Throw invalid_argument
    else
      match (if 0 <=? z1 then nth_error (matches t) (Z.to_nat z1) else None) with
      | None => Throw (TypeError "Cannot read properties of undefined")
      | Some row =>
          Normal (if 0 <=? z2 then nth_error row (Z.to_nat z2) else None)
      end.
Proof.
  unfold getMatch, number_of_Z, number_of_nat, Math_floor, number_eqb,
    number_geb, element.
  rewrite !Qfloor_Z, !Qeq_bool_refl, !Qle_bool_inject_Z.
  cbn [negb orb andb]. rewrite orb_false_r.
  destruct ((Z.of_nat (length (players t)) <=? z1) || (z1 <=? z2));
    [reflexivity|].
  destruct (0 <=? z1); [|reflexivity].
  destruct (nth_error (matches t) (Z.to_nat z1)); reflexivity.
Qed.

Section TournamentAccess.

Context {World : Type}.
Variable ps : list (Factory World).
Variable rounds : Z.
Variable w : World.

Local Abbreviation t := (constructed_tournament (Tournament_new ps rounds w)).

(** On a constructed Tournament, [getMatch(i, j)] with [0 <= j < i < N]
    returns the Match stored at row [i], column [j]. *)
Lemma getMatch_valid (i j : nat) :
  (j < i < length ps)%nat ->
  exists (row : list Match) (m : Match),
    nth_error (matches t) i = Some row
    /\ nth_error row j = Some m
    /\ getMatch t (VNumber (number_of_nat i)) (VNumber (number_of_nat j))
       = Normal (Some m).
Proof.
  intros [Hj Hi].
  destruct (Tournament_new_grid ps rounds w) as (_ & P & _ & G).
  destruct (G i Hi) as (row & Er & _ & Mr). destruct (Mr j Hj) as (m & Em).
  exists row, m. split; [exact Er|]. split; [exact Em|].
  change (number_of_nat i) with (number_of_Z (Z.of_nat i)).
  change (number_of_nat j) with (number_of_Z (Z.of_nat j)).
  rewrite getMatch_integers. rewrite P.
  replace (Z.of_nat (length ps) <=? Z.of_nat i) with false
    by (symmetry; apply Z.leb_gt; lia).
  replace (Z.of_nat i <=? Z.of_nat j) with false
    by (symmetry; apply Z.leb_gt; lia).
  cbn [orb].
  replace (0 <=? Z.of_nat i) with true by (symmetry; apply Z.leb_le; lia).
  replace (0 <=? Z.of_nat j) with true by (symmetry; apply Z.leb_le; lia).
  rewrite !Nat2Z.id.
  now rewrite Er, Em.
Qed.

(** On a constructed Tournament, [getMatch(i, j)] with [i] in range and [j]
    negative throws nothing and returns [undefined]. *)
Lemma getMatch_negative_column (i : nat) (z : Z) :
  (i < length ps)%nat -> z < 0 ->
  getMatch t (VNumber (number_of_nat i)) (VNumber (number_of_Z z))
  = Normal None.
Proof.
  intros Hi Hz.
  destruct (Tournament_new_grid ps rounds w) as (_ & P & _ & G).
  destruct (G i Hi) as (row & Er & _).
  change (number_of_nat i) with (number_of_Z (Z.of_nat i)).
  rewrite getMatch_integers. rewrite P.
  replace (Z.of_nat (length ps) <=? Z.of_nat i) with false
    by (symmetry; apply Z.leb_gt; lia).
  replace (Z.of_nat i <=? z) with false by (symmetry; apply Z.leb_gt; lia).
  cbn [orb].
  replace (0 <=? Z.of_nat i) with true by (symmetry; apply Z.leb_le; lia).
  replace (0 <=? z) with false by (symmetry; apply Z.leb_gt; lia).
  rewrite !Nat2Z.id.
  now rewrite Er.
Qed.

End TournamentAccess.

(** C9, the code at a failing input: on the Tournament of [goodGuyGreg] and
    [scumbagSteve], [getMatch(1, 0)] returns the stored Match and
    [getMatch(0, 1)], [getMatch(1, 1)], [getMatch(2, 0)],
    [getMatch(1, 0.5)] and [getMatch("1", 0)] throw the invalid-argument
    error; but [getMatch(1, -1)] throws nothing and returns [undefined] (the
    guard has no lower bound on the second index), and [getMatch(-1, -2)]
    passes the guard and fails with a [TypeError] instead. *)
Theorem getMatch_accepts_negative_index :
  let t := constructed_tournament
             (Tournament_new [factory_of goodGuyGreg_gen;
                              factory_of scumbagSteve_gen] 3 0%nat) in
  getMatch t (VNumber (number_of_Z 1)) (VNumber (number_of_Z (-1)))
  = Normal None
  /\ getMatch t (VNumber (number_of_Z (-1))) (VNumber (number_of_Z (-2)))
     = Throw (TypeError "Cannot read properties of undefined")
  /\ (exists m, getMatch t (VNumber (number_of_Z 1)) (VNumber (number_of_Z 0))
                = Normal (Some m))
  /\ getMatch t (VNumber (number_of_Z 0)) (VNumber (number_of_Z 1))
     = Throw invalid_argument
  /\ getMatch t (VNumber (number_of_Z 1)) (VNumber (number_of_Z 1))
     = Throw invalid_argument
  /\ getMatch t (VNumber (number_of_Z 2)) (VNumber (number_of_Z 0))
     = Throw invalid_argument
  /\ getMatch t (VNumber (number_of_Z 1)) (VNumber (Finite (1 # 2)))
     = Throw invalid_argument
  /\ getMatch t (VString "1") (VNumber (number_of_Z 0))
     = Throw invalid_argument.
Proof.
  cbv zeta. repeat split. eexists. reflexivity.
Qed.

Lemma add_objects_add (score : Score) (a b : nat) :
  add_objects (add_objects score a) b = add_objects score (a + b).
Proof.
  revert score. induction a as [|a IH]; intros score; [reflexivity|].
  cbn [add_objects Nat.add]. apply IH.
Qed.

Lemma add_objects_is_string (score : Score) (k : nat) :
  (0 < k)%nat -> exists s : string, add_objects score k = ScoreString s.
Proof.
  revert score. induction k as [|k IH]; intros score Hk; [lia|].
  destruct k as [|k].
  - eexists. reflexivity.
  - cbn [add_objects] in *. apply IH. lia.
Qed.

(** A loop of [getScore] over cells that all hold a Match adds one
    ["[object Object]"] per cell. *)
Lemma accumulate_objects {World} (t : Tournament World) (cells : list (nat * nat)) :
  (forall a b, In (a, b) cells -> exists m, matches_at t a b = Normal (Some m)) ->
  forall score : Score,
    accumulate t score cells = Normal (add_objects score (length cells)).
Proof.
  induction cells as [|[a b] rest IH]; intros Hcells score; [reflexivity|].
  destruct (Hcells a b) as (m & E); [now left|].
  cbn [accumulate length add_objects]. rewrite E. cbn [plus].
  apply IH. intros a' b' Hin. apply Hcells. now right.
Qed.

Section TournamentScores.

Context {World : Type}.
Variable ps : list (Factory World).
Variable rounds : Z.
Variable w : World.

Local Abbreviation t := (constructed_tournament (Tournament_new ps rounds w)).

Lemma constructed_cell (a b : nat) :
  (b < a < length ps)%nat ->
  exists m, matches_at t a b = Normal (Some m).
Proof.
  intros [Hb Ha].
  destruct (Tournament_new_grid ps rounds w) as (_ & _ & _ & G).
  destruct (G a Ha) as (row & Er & _ & Mr). destruct (Mr b Hb) as (m & Em).
  exists m. unfold matches_at. now rewrite Er, Em.
Qed.

(** On a constructed Tournament, [getScore(i)] for a roster index [i] is
    the number 0 followed by one ["[object Object]"] per opponent. *)
Lemma getScore_constructed (i : nat) :
  (i < length ps)%nat ->
  getScore t i = Normal (add_objects (ScoreNumber 0) (length ps - 1)).
Proof.
  intros Hi.
  destruct (Tournament_new_grid ps rounds w) as (_ & P & _).
  unfold getScore. rewrite P.
  rewrite accumulate_objects.
  - rewrite accumulate_objects.
    + rewrite add_objects_add, !length_map, !length_seq.
      f_equal. f_equal. lia.
    + intros a b Hin. apply in_map_iff in Hin.
      destruct Hin as (j & E & Hj). injection E as <- <-.
      apply in_seq in Hj. apply constructed_cell. lia.
  - intros a b Hin. apply in_map_iff in Hin.
    destruct Hin as (j & E & Hj). injection E as <- <-.
    apply in_seq in Hj. apply constructed_cell. lia.
Qed.

(** With at least two players, [getScore(i)] is a string, never the
    number the specification asks for. *)
Lemma getScore_is_string (i : nat) :
  (2 <= length ps)%nat -> (i < length ps)%nat ->
  exists s : string, getScore t i = Normal (ScoreString s).
Proof.
  intros HN Hi. rewrite (getScore_constructed i Hi).
  destruct (add_objects_is_string (ScoreNumber 0) (length ps - 1)) as (s & E);
    [lia|].
  exists s. now rewrite E.
Qed.

End TournamentScores.

(** C2, the code at a failing input: the Tournament of [goodGuyGreg]
    (index 0) and a factory that raises (index 1), over 3 rounds.  The one
    Match, at row 1 column 0, is forfeited at construction with
    score1 = 0 and score2 = 15, so the sums the specification describes are
    15 for player 0 and 0 for player 1; [getScore(0)] and [getScore(1)] both
    return the string ["0[object Object]"], because the loops add the
    Match object itself to the running total. *)
Theorem getScore_adds_match_objects :
  let t := constructed_tournament
             (Tournament_new [factory_of goodGuyGreg_gen; failing_factory]
                3 0%nat) in
  getScore t 0 = Normal (ScoreString "0[object Object]")
  /\ getScore t 1 = Normal (ScoreString "0[object Object]")
  /\ intended_score t 0 = 15
  /\ intended_score t 1 = 0.
Proof. cbv zeta. repeat split. Qed.

(** * Further properties of the engine *)

(** ** Outcomes of one round-advance *)

Lemma proper_move_is_move (v : value) :
  move_or_undefined v -> (v === VUndefined) = false ->
  exists mv : Move, v = move_value mv.
Proof.
  intros V U. destruct (proper_move_cases v V U) as [-> | ->];
    [now exists Cooperate|now exists Defect].
Qed.

(** The three things a call of [playRound] on a paused match can do: reject
    its promise (the match stays running), apply a forfeit, or score a
    round. *)
Lemma playRound_outcome (m : Match) :
  status m = paused ->
  roundLimit (snd (playRound m)) = roundLimit m
  /\ _logError (snd (playRound m)) = _logError m
  /\ (((exists exc, fst (playRound m) = Normal (Rejected exc))
       /\ takes_forfeit_block m = false
       /\ status (snd (playRound m)) = running
       /\ round (snd (playRound m)) = round m
       /\ score1 (snd (playRound m)) = score1 m
       /\ score2 (snd (playRound m)) = score2 m)
      \/ (fst (playRound m) = Normal Resolved
          /\ takes_forfeit_block m = true
          /\ status (snd (playRound m)) = done
          /\ round (snd (playRound m)) = round m
          /\ exists u1 u2 : bool,
               u1 || u2 = true
               /\ score1 (snd (playRound m))
                  = score1 m
                    + (if u1 then 0 else 5 * (roundLimit m - round m))
               /\ score2 (snd (playRound m))
                  = score2 m
                    + (if u2 then 0 else 5 * (roundLimit m - round m)))
      \/ (fst (playRound m) = Normal Resolved
          /\ takes_forfeit_block m = false
          /\ round (snd (playRound m)) = round m + 1
          /\ status (snd (playRound m))
             = (if round m + 1 >=? roundLimit m then done else paused)
          /\ exists a b : Move,
               score1 (snd (playRound m))
               = score1 m + fst (payoff_table a b)
               /\ score2 (snd (playRound m))
                  = score2 m + snd (payoff_table a b))).
Proof.
  intros Hst. unfold takes_forfeit_block. rewrite Hst, (playRound_paused m Hst).
  pose proof (roundMoves_frame (set_status running m)) as [F V].
  destruct (roundMoves (set_status running m)) as [[[move1 move2]|exc] m1];
    cbn [fst snd] in *;
    destruct F as (Fr & Fl & F1 & F2 & Fs & _ & _ & Fe); fields.
  - destruct V as [V1 V2].
    destruct ((move1 === VUndefined) || (move2 === VUndefined)) eqn:U.
    + unfold forfeitRound. fields. rewrite Fr, Fl, F1, F2, Fe.
      split; [reflexivity|]. split; [reflexivity|]. right; left.
      repeat split.
      exists (move1 === VUndefined), (move2 === VUndefined). now repeat split.
    + apply orb_false_iff in U. destruct U as [U1 U2].
      destruct (proper_move_is_move move1 V1 U1) as [a ->].
      destruct (proper_move_is_move move2 V2 U2) as [b ->].
      unfold scoreRound. rewrite evaluate_table.
      destruct (payoff_table a b) as [d1 d2] eqn:T. fields.
      rewrite Fr, Fl, F1, F2, Fe.
      split; [reflexivity|]. split; [reflexivity|]. right; right.
      repeat split. exists a, b. rewrite T. now split.
  - rewrite Fr, Fl, F1, F2, Fs, Fe.
    split; [reflexivity|]. split; [reflexivity|]. left.
    repeat split. now exists exc.
Qed.

Lemma playRound_logError (m : Match) :
  _logError (snd (playRound m)) = _logError m.
Proof.
  destruct (status m) eqn:Hst.
  - now destruct (playRound_outcome m Hst) as (_ & E & _).
  - now rewrite (playRound_running m Hst).
  - now rewrite (playRound_done m Hst).
Qed.

Lemma playRounds_frozen (m : Match) (n : nat) :
  status m <> paused -> playRounds n m = m.
Proof.
  intros Hst. induction n as [|n IH]; [reflexivity|].
  rewrite playRounds_succ, IH.
  now destruct (playRound_not_paused m Hst) as [msg ->].
Qed.

(** X1: a Match that is done (or left running) is frozen: each further call
    of [playRound] throws, "already over" when it is done and "already
    running" when it is running, and after any number of such calls the
    Match, generators included, is exactly as it was. *)
Theorem finished_match_is_frozen (m : Match) (n : nat) :
  status m <> paused ->
  playRounds n m = m
  /\ fst (playRound (playRounds n m))
     = Throw (Error (if Status_eqb (status m) done
                     then "Dilemma.Match.playRound: The match is already over."
                     else "Dilemma.Match.playRound: The match is already running.")).
Proof.
  intros Hst. rewrite (playRounds_frozen m n Hst). split; [reflexivity|].
  destruct (status m) eqn:E; [congruence| |].
  - now rewrite (playRound_running m E).
  - now rewrite (playRound_done m E).
Qed.

(** A match forfeited at construction, after five more calls of
    [playRound]. *)
Lemma finished_match_is_frozen_witness :
  playRounds 5 (constructed (Match_new failing_factory
                               (factory_of goodGuyGreg_gen) 3 0%nat))
  = constructed (Match_new failing_factory (factory_of goodGuyGreg_gen) 3 0%nat).
Proof.
  refine (proj1 (finished_match_is_frozen
                   (constructed (Match_new failing_factory
                                   (factory_of goodGuyGreg_gen) 3 0%nat))
                   5 _)).
  cbn. discriminate.
Defined.

(** ** The full-match driver *)

Lemma playMatch_go_settles (fuel : nat) :
  forall m : Match,
  status m = paused ->
  (enough_fuel m <= fuel)%nat ->
  exists (p : Promise) (m' : Match) (k : nat),
    playMatch_go fuel m = Some (p, m')
    /\ (1 <= k <= enough_fuel m)%nat
    /\ m' = playRounds k m
    /\ match p with
       | Resolved => status m' = done
       | Rejected _ => status m' = running
       end.
Proof.
  induction fuel as [|fuel IH]; intros m Hst Hfuel.
  - unfold enough_fuel in Hfuel. lia.
  - cbn [playMatch_go].
    destruct (playRound_outcome m Hst) as (RL & _ & O).
    destruct (playRound m) as [c m1] eqn:P. cbn [fst snd] in *.
    assert (One : (1 <= 1 <= enough_fuel m)%nat) by (unfold enough_fuel; lia).
    assert (P1 : m1 = playRounds 1 m) by (cbn [playRounds]; now rewrite P).
    destruct O as [((exc & ->) & _ & S1 & _)
                  |[(-> & _ & S1 & _)|(-> & _ & R1 & S1 & _)]].
    + exists (Rejected exc), m1, 1%nat. now repeat split.
    + rewrite S1. cbn [Status_eqb]. exists Resolved, m1, 1%nat.
      now repeat split.
    + rewrite S1.
      destruct (round m + 1 >=? roundLimit m) eqn:G; cbn [Status_eqb].
      * exists Resolved, m1, 1%nat. now repeat split.
      * rewrite Z.geb_leb in G. apply Z.leb_gt in G.
        assert (E : enough_fuel m = S (enough_fuel m1)).
        { unfold enough_fuel. rewrite RL, R1.
          rewrite <- Z2Nat.inj_succ by lia. f_equal. lia. }
        destruct (IH m1) as (p & m' & k & Go & Hk & Pk & St);
          [rewrite S1; reflexivity|lia|].
        exists p, m', (S k). split; [exact Go|]. split; [lia|].
        split; [|exact St]. cbn [playRounds]. now rewrite P.
Qed.

(** X2: [playMatch] on a paused match always settles its promise, and within
    max(1, roundLimit - round) calls of [playRound], whatever the strategies
    do: the Match it ends with is the one reached by that many calls of
    [playRound]; if the promise is resolved the match is done, and if it is
    rejected the match is left running. *)
Theorem playMatch_settles (m : Match) (fuel : nat) :
  status m = paused ->
  (enough_fuel m <= fuel)%nat ->
  exists (p : Promise) (m' : Match) (k : nat),
    playMatch fuel m = Some (Normal p, m')
    /\ (1 <= k <= enough_fuel m)%nat
    /\ m' = playRounds k m
    /\ match p with
       | Resolved => status m' = done
       | Rejected _ => status m' = running
       end.
Proof.
  intros Hst Hfuel.
  destruct (playMatch_go_settles fuel m Hst Hfuel) as (p & m' & k & Go & R).
  exists p, m', k. split; [|exact R].
  unfold playMatch. rewrite Hst. cbn [Status_eqb]. now rewrite Go.
Qed.

(** [HighExpectationsAsianFather] against [scumbagSteve] over 4 rounds, with
    exactly the fuel that suffices. *)
Lemma playMatch_settles_witness :
  exists (p : Promise) (m' : Match),
    playMatch 4 (constructed (Match_new (factory_of HighExpectationsAsianFather_gen)
                                (factory_of scumbagSteve_gen) 4 0%nat))
    = Some (Normal p, m').
Proof.
  destruct (playMatch_settles
              (constructed (Match_new (factory_of HighExpectationsAsianFather_gen)
                              (factory_of scumbagSteve_gen) 4 0%nat))
              4 eq_refl (le_n 4))
    as (p & m' & _ & E & _).
  exists p, m'. exact E.
Defined.

(** [playMatch] on a match that is already done resolves at once and
    [playMatch] on a running match throws; in both cases no strategy is
    resumed and the Match is unchanged. *)
Lemma playMatch_on_finished_match (m : Match) (fuel : nat) :
  status m <> paused ->
  playMatch fuel m
  = Some (if Status_eqb (status m) done then Normal Resolved
          else Throw (Error "Dilemma.Match.playMatch: The match is already running."),
          m).
Proof.
  intros Hst. unfold playMatch. destruct (status m); [congruence| |]; reflexivity.
Qed.

(** ** Bounds on the scores *)

Lemma score_bounds_step (m : Match) :
  0 <= round m <= roundLimit m ->
  (status m = paused -> round m < roundLimit m) ->
  score_bounds m ->
  score_bounds (snd (playRound m)).
Proof.
  intros Hr Hp (B1 & B2 & B3 & B4). destruct (status m) eqn:Hst.
  - specialize (Hp eq_refl). destruct B4 as [D|(C1 & C2 & C3)]; [discriminate D|].
    destruct (playRound_outcome m Hst) as (RL & _ & O).
    unfold score_bounds. rewrite RL.
    destruct O as [(_ & _ & S & R & E1 & E2)
                  |[(_ & _ & S & R & u1 & u2 & U & E1 & E2)
                   |(_ & _ & R & S & a & b & E1 & E2)]];
      rewrite ?E1, ?E2, ?R, ?S.
    + repeat split; first [lia | now left | right; lia].
    + destruct u1, u2; try discriminate U;
        repeat split; first [lia | now left | right; lia].
    + destruct a, b; cbn [payoff_table fst snd];
        destruct (round m + 1 >=? roundLimit m);
        repeat split; first [lia | now left | right; lia].
  - destruct (playRound_not_paused m) as [msg ->]; [congruence|].
    cbn [snd]. unfold score_bounds. rewrite Hst. tauto.
  - destruct (playRound_not_paused m) as [msg ->]; [congruence|].
    cbn [snd]. unfold score_bounds. rewrite Hst. tauto.
Qed.

(** X4: on a Match constructed with a positive roundLimit, after any number
    of round-advances (with or without a logger on the Match), each score is
    between 0 and 5 x roundLimit and the two scores add up to at most
    6 x roundLimit; and as long as the match is not done, each score is at
    most 5 x the round counter and their sum at most 6 x the round
    counter. *)
Theorem scores_are_bounded {World} (player1 player2 : Factory World)
  (rounds : Z) (w : World) (log : option (value -> Completion unit))
  (n : nat) :
  0 < rounds ->
  score_bounds
    (playRounds n
       (set_logError log (constructed (Match_new player1 player2 rounds w))))
  /\ roundLimit
       (playRounds n
          (set_logError log (constructed (Match_new player1 player2 rounds w))))
     = rounds.
Proof.
  intros Hpos. split; [|now destruct (reachable_invariant player1 player2
                                        rounds w log Hpos n) as (L & _)].
  induction n as [|n IH].
  - pose proof (Match_new_fields player1 player2 rounds w)
      as (L & R & _ & _ & _ & _ & St).
    unfold construction_forfeits in St. cbn [playRounds].
    destruct (player1 w) as [[gen1|exc1] w1] eqn:P1.
    + destruct (player2 w1) as [[gen2|exc2] w2] eqn:P2.
      * erewrite Match_new_both_made by eassumption.
        unfold score_bounds. cbn -[Z.mul].
        repeat split; first [lia | now left | right; lia].
      * erewrite Match_new_second_raises by eassumption.
        unfold score_bounds. cbn -[Z.mul].
        repeat split; first [lia | now left | right; lia].
    + erewrite Match_new_first_raises by eassumption.
      unfold score_bounds. cbn -[Z.mul].
      repeat split; first [lia | now left | right; lia].
  - rewrite playRounds_succ.
    destruct (reachable_invariant player1 player2 rounds w log Hpos n)
      as (L & R & I).
    assert (R0 : 0 <= round (playRounds n
                   (set_logError log
                      (constructed (Match_new player1 player2 rounds w))))).
    { clear IH L R I. induction n as [|n IHn].
      - pose proof (Match_new_fields player1 player2 rounds w)
          as (_ & R & _). cbn [playRounds]. fields. lia.
      - rewrite playRounds_succ.
        destruct (status (playRounds n
                   (set_logError log
                      (constructed (Match_new player1 player2 rounds w)))))
          eqn:Hst.
        + destruct (playRound_outcome _ Hst) as (_ & _ & O).
          destruct O as [(_ & _ & _ & E & _)
                        |[(_ & _ & _ & E & _)|(_ & _ & E & _)]];
            rewrite E; lia.
        + destruct (playRound_not_paused
                     (playRounds n
                        (set_logError log
                           (constructed (Match_new player1 player2 rounds w)))))
            as [msg ->]; [congruence|exact IHn].
        + destruct (playRound_not_paused
                     (playRounds n
                        (set_logError log
                           (constructed (Match_new player1 player2 rounds w)))))
            as [msg ->]; [congruence|exact IHn]. }
    apply score_bounds_step; [lia| |exact IH].
    intros Hst.
    destruct (Z.eq_dec
                (round (playRounds n
                   (set_logError log
                      (constructed (Match_new player1 player2 rounds w)))))
                (roundLimit (playRounds n
                   (set_logError log
                      (constructed (Match_new player1 player2 rounds w))))))
      as [E|E]; [|lia].
    assert (D : paused = done) by (rewrite <- Hst; apply I; now left).
    discriminate D.
Qed.

(** [HighExpectationsAsianFather] against [scumbagSteve] over 4 rounds,
    after 2 round-advances: scores (1, 6) with roundLimit 4. *)
Lemma scores_are_bounded_witness :
  score1 (playRounds 2
            (set_logError None
               (constructed (Match_new (factory_of HighExpectationsAsianFather_gen)
                               (factory_of scumbagSteve_gen) 4 0%nat))))
  <= 5 * 4.
Proof.
  destruct (scores_are_bounded (factory_of HighExpectationsAsianFather_gen)
              (factory_of scumbagSteve_gen) 4 0%nat None 2 eq_refl)
    as (((_ & B) & _) & L).
  rewrite L in B. exact B.
Defined.

(** ** A Match as the constructor leaves it: no logger *)

Lemma set_g_logError (name : Z) (g : Generator) (m : Match) :
  _logError (set_g name g m) = _logError m.
Proof.
  unfold set_g. destruct (name =? 1); [reflexivity|].
  destruct (name =? 2); reflexivity.
Qed.

Lemma getNextMove_defined_without_logger (name : Z) (gen : option Generator)
  (arg : value) (m : Match) :
  _logError m = None ->
  match fst (getNextMove name gen arg m) with
  | Normal v => (v === VUndefined) = false
  | Throw _ => True
  end.
Proof.
  intros L. unfold getNextMove. destruct gen as [g|]; [|exact I].
  destruct (next g arg) as [[result|exc] g']; unfold bind, modify, logError;
    [|exact I].
  pose proof (set_g_logError name g' m) as L'. rewrite L in L'.
  destruct (result_done result); [now rewrite L'|].
  destruct (result_value result === COOPERATE) eqn:EC; cbn [negb andb].
  - cbn. now rewrite (strict_eq_string _ _ EC).
  - destruct (result_value result === DEFECT) eqn:ED; cbn [negb];
      [|now rewrite L'].
    cbn. now rewrite (strict_eq_string _ _ ED).
Qed.

Lemma takes_forfeit_block_needs_logger (m : Match) :
  _logError m = None -> takes_forfeit_block m = false.
Proof.
  intros L. unfold takes_forfeit_block. destruct (status m); try reflexivity.
  unfold roundMoves, bind, get. fields.
  pose proof (getNextMove_defined_without_logger 1 (_g1 m) (lastMove2 m)
                (set_status running m) L) as D1.
  pose proof (getNextMove_frame 1 (_g1 m) (lastMove2 m)
                (set_status running m)) as [F1 _].
  destruct (getNextMove 1 (_g1 m) (lastMove2 m) (set_status running m))
    as [[move1|exc] m1]; cbn [fst snd] in *; [|reflexivity].
  destruct F1 as (_ & _ & _ & _ & _ & _ & _ & L1). fields.
  pose proof (getNextMove_defined_without_logger 2 (_g2 m1) (lastMove1 m1)
                m1 (eq_trans L1 L)) as D2.
  destruct (getNextMove 2 (_g2 m1) (lastMove1 m1) m1)
    as [[move2|exc] m2]; cbn [fst snd ret] in *; [|reflexivity].
  now rewrite D1, D2.
Qed.

Lemma playRounds_logError (n : nat) (m : Match) :
  _logError (playRounds n m) = _logError m.
Proof.
  induction n as [|n IH]; [reflexivity|].
  now rewrite playRounds_succ, playRound_logError.
Qed.

(** X5: on a Match as the constructor builds it (no [_logError]), whatever
    the strategies are and however many round-advances were made, a call of
    [playRound] never takes the forfeit block; when its promise is resolved
    the round was scored: the round counter went up by one and the scores by
    one row of the payoff table. *)
Theorem resolved_round_is_scored {World} (player1 player2 : Factory World)
  (rounds : Z) (w : World) (n : nat) :
  takes_forfeit_block
    (playRounds n (constructed (Match_new player1 player2 rounds w)))
  = false
  /\ (fst (playRound
             (playRounds n (constructed (Match_new player1 player2 rounds w))))
      = Normal Resolved ->
      round (playRounds (S n)
               (constructed (Match_new player1 player2 rounds w)))
      = round (playRounds n
                 (constructed (Match_new player1 player2 rounds w))) + 1
      /\ exists a b : Move,
           score1 (playRounds (S n)
                     (constructed (Match_new player1 player2 rounds w)))
           = score1 (playRounds n
                       (constructed (Match_new player1 player2 rounds w)))
             + fst (payoff_table a b)
           /\ score2 (playRounds (S n)
                        (constructed (Match_new player1 player2 rounds w)))
              = score2 (playRounds n
                          (constructed (Match_new player1 player2 rounds w)))
                + snd (payoff_table a b)).
Proof.
  assert (F : takes_forfeit_block
                (playRounds n (constructed (Match_new player1 player2 rounds w)))
              = false).
  { apply takes_forfeit_block_needs_logger. rewrite playRounds_logError.
    now destruct (Match_new_fields player1 player2 rounds w)
      as (_ & _ & _ & _ & L & _). }
  split; [exact F|]. intros Res. rewrite playRounds_succ.
  destruct (status (playRounds n
                      (constructed (Match_new player1 player2 rounds w))))
    eqn:Hst.
  - destruct (playRound_outcome _ Hst) as (_ & _ & O).
    destruct O as [((exc & E) & _)|[(_ & T & _)|(_ & _ & R & _ & S)]].
    + rewrite E in Res. discriminate Res.
    + rewrite F in T. discriminate T.
    + now split.
  - rewrite (playRound_running _ Hst) in Res. discriminate Res.
  - rewrite (playRound_done _ Hst) in Res. discriminate Res.
Qed.

(** X6: on a Match built by the constructor from two factories that both
    return (no construction forfeit), with a positive roundLimit and no
    logger, the match is done exactly when all rounds have been played:
    after any number of round-advances, done if and only if the round
    counter equals roundLimit. *)
Theorem done_iff_all_rounds_played {World} (player1 player2 : Factory World)
  (rounds : Z) (w : World) (n : nat) :
  0 < rounds ->
  construction_forfeits player1 player2 w = false ->
  status (playRounds n (constructed (Match_new player1 player2 rounds w)))
  = done
  <-> round (playRounds n (constructed (Match_new player1 player2 rounds w)))
      = rounds.
Proof.
  intros Hpos NoF.
  assert (E : set_logError None
                (constructed (Match_new player1 player2 rounds w))
              = constructed (Match_new player1 player2 rounds w)).
  { unfold construction_forfeits in NoF.
    destruct (player1 w) as [[gen1|exc1] w1] eqn:P1; [|discriminate NoF].
    destruct (player2 w1) as [[gen2|exc2] w2] eqn:P2; [|discriminate NoF].
    erewrite Match_new_both_made by eassumption. reflexivity. }
  destruct (reachable_invariant player1 player2 rounds w None Hpos n)
    as (L & _ & I).
  rewrite E in *. rewrite I, L. unfold forfeit_block_ran. rewrite NoF.
  split.
  - intros [H|[H|(k & _ & H)]]; [exact H|discriminate H|].
    rewrite takes_forfeit_block_needs_logger in H; [discriminate H|].
    rewrite playRounds_logError.
    now destruct (Match_new_fields player1 player2 rounds w)
      as (_ & _ & _ & _ & Lg & _).
  - intros H. now left.
Qed.

(** Two always-cooperators over 2 rounds, after 2 round-advances. *)
Lemma done_iff_all_rounds_played_witness :
  status (playRounds 2 (constructed (Match_new (factory_of goodGuyGreg_gen)
                                       (factory_of goodGuyGreg_gen) 2 0%nat)))
  = done
  <-> round (playRounds 2 (constructed (Match_new (factory_of goodGuyGreg_gen)
                                          (factory_of goodGuyGreg_gen) 2 0%nat)))
      = 2.
Proof.
  exact (done_iff_all_rounds_played (factory_of goodGuyGreg_gen)
           (factory_of goodGuyGreg_gen) 2 0%nat 2 eq_refl eq_refl).
Defined.

(** ** A Match with a logger installed *)

Lemma getNextMove_logged (name : Z) (g g' : Generator) (arg : value)
  (result : IteratorResult) (m : Match) (log : value -> Completion unit) :
  _logError m = Some log ->
  (forall err, log err = Normal tt) ->
  next g arg = (Normal result, g') ->
  getNextMove name (Some g) arg m
  = (Normal (if not_a_move result then VUndefined else result_value result),
     set_g name g' m).
Proof.
  intros L T N. unfold getNextMove, not_a_move. rewrite N.
  unfold bind, modify, logError, ret.
  pose proof (set_g_logError name g' m) as L'. rewrite L in L'.
  destruct (result_done result); cbn [orb].
  - now rewrite L', T.
  - destruct ((result_value result !== COOPERATE)
              && (result_value result !== DEFECT)); [|reflexivity].
    now rewrite L', T.
Qed.

Lemma accepted_move_defined (result : IteratorResult) :
  ((if not_a_move result then VUndefined else result_value result)
   === VUndefined) = not_a_move result.
Proof.
  unfold not_a_move. destruct (result_done result); [reflexivity|].
  cbn [orb].
  destruct (result_value result === COOPERATE) eqn:EC; cbn [negb andb].
  - now rewrite (strict_eq_string _ _ EC).
  - destruct (result_value result === DEFECT) eqn:ED; cbn [negb]; [|reflexivity].
    now rewrite (strict_eq_string _ _ ED).
Qed.

(** X7: with a logger on the Match that returns normally, a round in which
    both resumptions return (neither strategy raises) and at least one
    strategy returns without yielding or yields something that is not a
    move is a forfeit: the promise is resolved, both generators have been
    resumed, the match is done at once with the round counter unchanged, a
    side whose move was not accepted gets nothing and a side with a proper
    move gets 5 x (roundLimit - round). *)
Theorem forfeit_with_logger (m : Match) (log : value -> Completion unit)
  (g1 g2 g1' g2' : Generator) (r1 r2 : IteratorResult) :
  status m = paused ->
  _logError m = Some log ->
  (forall err, log err = Normal tt) ->
  _g1 m = Some g1 ->
  _g2 m = Some g2 ->
  next g1 (lastMove2 m) = (Normal r1, g1') ->
  next g2 (lastMove1 m) = (Normal r2, g2') ->
  not_a_move r1 || not_a_move r2 = true ->
  exists m' : Match,
    playRound m = (Normal Resolved, m')
    /\ status m' = done
    /\ round m' = round m
    /\ score1 m' = score1 m
                   + (if not_a_move r1 then 0
                      else 5 * (roundLimit m - round m))
    /\ score2 m' = score2 m
                   + (if not_a_move r2 then 0
                      else 5 * (roundLimit m - round m))
    /\ _g1 m' = Some g1' /\ _g2 m' = Some g2'.
Proof.
  intros Hst L T G1 G2 N1 N2 Bad.
  assert (R : roundMoves (set_status running m)
              = (Normal (if not_a_move r1 then VUndefined else result_value r1,
                         if not_a_move r2 then VUndefined else result_value r2),
                 set_g2 (Some g2') (set_g1 (Some g1') (set_status running m)))).
  { unfold roundMoves, bind, get. fields. rewrite G1.
    rewrite (getNextMove_logged 1 g1 g1' _ r1 (set_status running m)
               log L T N1).
    fields. rewrite G2.
    rewrite (getNextMove_logged 2 g2 g2' _ r2
               (set_g1 (Some g1') (set_status running m)) log L T N2).
    reflexivity. }
  rewrite (playRound_paused m Hst), R, !accepted_move_defined, Bad.
  eexists. split; [reflexivity|]. unfold forfeitRound.
  rewrite !accepted_move_defined. fields. repeat split.
Qed.

(** A strategy that returns without yielding against an always-cooperator,
    over 3 rounds, on a Match given a logger: the cooperator is credited
    15. *)
Lemma forfeit_with_logger_witness :
  exists m' : Match,
    playRound (set_logError (Some (fun _ => Normal tt))
                 (constructed (Match_new (factory_of quitter_gen)
                                 (factory_of goodGuyGreg_gen) 3 0%nat)))
    = (Normal Resolved, m')
    /\ status m' = done /\ score1 m' = 0 /\ score2 m' = 15.
Proof.
  destruct (forfeit_with_logger
              (set_logError (Some (fun _ => Normal tt))
                 (constructed (Match_new (factory_of quitter_gen)
                                 (factory_of goodGuyGreg_gen) 3 0%nat)))
              (fun _ => Normal tt) quitter_gen goodGuyGreg_gen
              quitter_gen goodGuyGreg_gen
              (mkResult true VUndefined) (mkResult false COOPERATE)
              eq_refl eq_refl (fun _ => eq_refl) eq_refl eq_refl
              eq_refl eq_refl eq_refl)
    as (m' & P & St & _ & S1 & S2 & _).
  exists m'. split; [exact P|]. split; [exact St|]. split; [exact S1|exact S2].
Defined.

(** X8: when the resumption of player 1's strategy raises, player 2's
    strategy is not resumed in that round, the promise of [playRound] is
    rejected with what the strategy threw, scores and round counter are
    untouched, and the match is left running, so that every later
    [playRound] throws "already running". *)
Theorem raising_first_strategy (m : Match) (g g' : Generator) (exc : value) :
  status m = paused ->
  _g1 m = Some g ->
  next g (lastMove2 m) = (Throw exc, g') ->
  exists m' : Match,
    playRound m = (Normal (Rejected exc), m')
    /\ _g1 m' = Some g' /\ _g2 m' = _g2 m
    /\ public_state m' = (running, score1 m, score2 m, round m)
    /\ forall n : nat,
         playRound (playRounds n m')
         = (Throw (Error "Dilemma.Match.playRound: The match is already running."),
            m').
Proof.
  intros Hst G N. rewrite (playRound_strategy_raises m g g' exc Hst G N).
  eexists. split; [reflexivity|]. repeat split.
  intros n. rewrite playRounds_frozen by (cbn; discriminate).
  now apply playRound_running.
Qed.

(** A strategy whose first resumption raises, as player 1 against an
    always-cooperator. *)
Lemma raising_first_strategy_witness :
  exists m' : Match,
    playRound (constructed (Match_new (factory_of thrower_gen)
                              (factory_of goodGuyGreg_gen) 3 0%nat))
    = (Normal (Rejected (Error "boom")), m')
    /\ _g2 m' = Some goodGuyGreg_gen.
Proof.
  destruct (raising_first_strategy
              (constructed (Match_new (factory_of thrower_gen)
                              (factory_of goodGuyGreg_gen) 3 0%nat))
              thrower_gen
              (mkGenerator bool true (gen_next thrower_gen))
              (Error "boom") eq_refl eq_refl eq_refl)
    as (m' & P & _ & G2 & _).
  exists m'. split; [exact P|exact G2].
Defined.

(** ** The engine and the older driver *)

Lemma next_ignores_input (g g' : Generator) (arg : value)
  (c : Completion IteratorResult) :
  ignores_input g -> next g arg = (c, g') -> ignores_input g'.
Proof.
  unfold next. intros Ig N.
  destruct (gen_next g (gen_current g) arg) as [c0 st].
  injection N as _ <-. exact Ig.
Qed.

Lemma next_any_input (g : Generator) (a b : value) :
  ignores_input g -> next g a = next g b.
Proof. unfold next. intros Ig. now rewrite (Ig (gen_current g) a b). Qed.

Lemma accepted_value_is_move (v : value) :
  (v !== COOPERATE) && (v !== DEFECT) = false ->
  exists mv : Move, v = move_value mv.
Proof.
  destruct (v === COOPERATE) eqn:EC; cbn [negb andb].
  - intros _. exists Cooperate. now apply strict_eq_string.
  - destruct (v === DEFECT) eqn:ED; cbn [negb]; [|discriminate].
    intros _. exists Defect. now apply strict_eq_string.
Qed.

(** What the older [getNextMove] returning a move says about the
    generator. *)
Lemma Legacy_getNextMove_normal (name : string) (g g' : Generator)
  (arg move : value) :
  Legacy.getNextMove name g arg = (Normal move, g') ->
  exists mv : Move, move = move_value mv /\ next g arg = (yields move, g').
Proof.
  unfold Legacy.getNextMove.
  destruct (next g arg) as [[[d v]|exc] g0]; [|discriminate].
  cbn [result_done result_value]. destruct d; [discriminate|].
  destruct ((v !== COOPERATE) && (v !== DEFECT)) eqn:B; [discriminate|].
  intros E. injection E as <- <-.
  destruct (accepted_value_is_move v B) as [mv ->].
  exists mv. now split.
Qed.

(** One iteration of the older loop against one call of [playRound], for
    strategies that ignore what they are resumed with. *)
Lemma iteration_playRound (l l1 : Legacy.Locals) (m : Match) :
  Legacy.iteration l = Normal l1 ->
  status m = paused ->
  _g1 m = Some (Legacy.gen1 l) ->
  _g2 m = Some (Legacy.gen2 l) ->
  ignores_input (Legacy.gen1 l) ->
  ignores_input (Legacy.gen2 l) ->
  exists a b : Move,
    playRound m
    = (Normal Resolved,
       scoreRound (move_value a) (move_value b)
         (set_g2 (Some (Legacy.gen2 l1))
            (set_g1 (Some (Legacy.gen1 l1)) (set_status running m))))
    /\ Legacy.score1 l1 = Legacy.score1 l + fst (payoff_table a b)
    /\ Legacy.score2 l1 = Legacy.score2 l + snd (payoff_table a b)
    /\ ignores_input (Legacy.gen1 l1)
    /\ ignores_input (Legacy.gen2 l1).
Proof.
  intros It Hst G1 G2 I1 I2. unfold Legacy.iteration in It.
  destruct (Legacy.getNextMove "1" (Legacy.gen1 l) (Legacy.prev2 l))
    as [[move1|exc1] g1'] eqn:M1; [|discriminate It].
  destruct (Legacy.getNextMove "2" (Legacy.gen2 l) (Legacy.prev1 l))
    as [[move2|exc2] g2'] eqn:M2; [|discriminate It].
  destruct (Legacy_getNextMove_normal _ _ _ _ _ M1) as (a & -> & N1).
  destruct (Legacy_getNextMove_normal _ _ _ _ _ M2) as (b & -> & N2).
  rewrite adjust_table in It. injection It as <-.
  cbn [Legacy.gen1 Legacy.gen2 Legacy.score1 Legacy.score2].
  exists a, b. split.
  - apply playRound_proper_moves with (g1 := Legacy.gen1 l) (g2 := Legacy.gen2 l);
      try assumption.
    + now rewrite (next_any_input _ (lastMove2 m) (Legacy.prev2 l) I1).
    + now rewrite (next_any_input _ (lastMove1 m) (Legacy.prev1 l) I2).
  - repeat split.
    + exact (next_ignores_input _ _ _ _ I1 N1).
    + exact (next_ignores_input _ _ _ _ I2 N2).
Qed.

Lemma loop_playMatch_go (N : nat) :
  forall (l l' : Legacy.Locals) (m : Match),
  Legacy.loop (S N) l = Normal l' ->
  status m = paused ->
  _g1 m = Some (Legacy.gen1 l) ->
  _g2 m = Some (Legacy.gen2 l) ->
  ignores_input (Legacy.gen1 l) ->
  ignores_input (Legacy.gen2 l) ->
  roundLimit m = round m + Z.of_nat (S N) ->
  exists m' : Match,
    playMatch_go (S N) m = Some (Resolved, m')
    /\ status m' = done
    /\ round m' = roundLimit m
    /\ score1 m' - score1 m = Legacy.score1 l' - Legacy.score1 l
    /\ score2 m' - score2 m = Legacy.score2 l' - Legacy.score2 l.
Proof.
  induction N as [|N IH]; intros l l' m Lp Hst G1 G2 I1 I2 RL.
  - cbn [Legacy.loop] in Lp.
    destruct (Legacy.iteration l) as [l1|exc] eqn:It; [|discriminate Lp].
    injection Lp as <-.
    destruct (iteration_playRound l l1 m It Hst G1 G2 I1 I2)
      as (a & b & P & S1 & S2 & _).
    cbn [playMatch_go]. rewrite P. unfold scoreRound.
    destruct (evaluate (move_value a) (move_value b)) as [d1 d2] eqn:Ev.
    rewrite evaluate_table in Ev. rewrite Ev in S1, S2. cbn [fst snd] in S1, S2.
    fields.
    replace (round m + 1 >=? roundLimit m) with true
      by (symmetry; apply Z.geb_le; lia).
    cbn [Status_eqb]. eexists. split; [reflexivity|]. fields.
    repeat split; lia.
  - change (Legacy.loop (S (S N)) l)
      with (match Legacy.iteration l with
            | Throw exc => Throw exc
            | Normal l1 => Legacy.loop (S N) l1
            end) in Lp.
    destruct (Legacy.iteration l) as [l1|exc] eqn:It; [|discriminate Lp].
    destruct (iteration_playRound l l1 m It Hst G1 G2 I1 I2)
      as (a & b & P & S1 & S2 & I1' & I2').
    change (playMatch_go (S (S N)) m)
      with (match playRound m with
            | (Throw exc, self') => Some (Rejected exc, self')
            | (Normal (Rejected exc), self') => Some (Rejected exc, self')
            | (Normal Resolved, self') =>
                if Status_eqb (status self') done then Some (Resolved, self')
                else playMatch_go (S N) self'
            end).
    rewrite P.
    remember (scoreRound (move_value a) (move_value b)
                (set_g2 (Some (Legacy.gen2 l1))
                   (set_g1 (Some (Legacy.gen1 l1)) (set_status running m))))
      as m1 eqn:E1.
    assert (F : status m1 = paused /\ round m1 = round m + 1
                /\ roundLimit m1 = roundLimit m
                /\ score1 m1 = score1 m + fst (payoff_table a b)
                /\ score2 m1 = score2 m + snd (payoff_table a b)
                /\ _g1 m1 = Some (Legacy.gen1 l1)
                /\ _g2 m1 = Some (Legacy.gen2 l1)).
    { subst m1. unfold scoreRound. rewrite evaluate_table.
      destruct (payoff_table a b) as [d1 d2]. fields.
      replace (round m + 1 >=? roundLimit m) with false
        by (symmetry; rewrite Z.geb_leb; apply Z.leb_gt; lia).
      repeat split. }
    destruct F as (St1 & R1 & L1 & Sc1 & Sc2 & G1' & G2').
    rewrite St1. cbn [Status_eqb].
    destruct (IH l1 l' m1 Lp St1 G1' G2' I1' I2') as (m' & Go & D & R & E1' & E2');
      [lia|].
    exists m'. split; [exact Go|]. split; [exact D|].
    split; [congruence|]. split; lia.
Qed.

(** The scores the older driver returns are the scores the engine reaches,
    for strategies that ignore what they are resumed with. *)
Lemma legacy_scores_in_engine {World} (player1 player2 : Factory World)
  (N : nat) (w w1 w2 : World) (gen1 gen2 : Generator) (s1 s2 : Z) :
  player1 w = (Normal gen1, w1) ->
  player2 w1 = (Normal gen2, w2) ->
  ignores_input gen1 ->
  ignores_input gen2 ->
  (1 <= N)%nat ->
  fst (Legacy.play player1 player2 N w) = Normal (s1, s2) ->
  exists m' : Match,
    playMatch N (constructed (Match_new player1 player2 (Z.of_nat N) w))
    = Some (Normal Resolved, m')
    /\ status m' = done
    /\ round m' = Z.of_nat N
    /\ score1 m' = s1 /\ score2 m' = s2.
Proof.
  intros P1 P2 I1 I2 HN Play.
  unfold Legacy.play, bind in Play. rewrite P1, P2 in Play.
  destruct (Legacy.loop N (Legacy.mkLocals gen1 gen2 0 0 VUndefined VUndefined))
    as [l'|exc] eqn:Lp; [|discriminate Play].
  cbn [fst] in Play. injection Play as <- <-.
  destruct N as [|N]; [lia|].
  rewrite (Match_new_both_made player1 player2 (Z.of_nat (S N)) w w1 w2
             gen1 gen2 P1 P2).
  cbn [constructed].
  destruct (loop_playMatch_go N _ l'
              (set_g2 (Some gen2)
                 (set_g1 (Some gen1) (Match_init (Z.of_nat (S N)))))
              Lp eq_refl eq_refl eq_refl I1 I2)
    as (m' & Go & D & R & E1 & E2).
  - cbn -[Z.of_nat]. lia.
  - exists m'. unfold playMatch. cbn [status set_g2 set_g1 Match_init Status_eqb].
    rewrite Go. cbn -[Z.of_nat] in R, E1, E2.
    cbn [Legacy.score1 Legacy.score2] in E1, E2.
    repeat split; try assumption; lia.
Qed.

(** X9: for two strategies that do not look at what they are resumed with,
    the engine and the older driver agree: if [play] of [dilemma.js] returns
    the scores (s1, s2) for N >= 1 rounds, then [playMatch] on
    [new Match(player1, player2, N)] resolves with the match done, the round
    counter at N and the same scores. *)
Theorem engine_agrees_with_legacy {World} (player1 player2 : Factory World)
  (N : nat) (w w1 w2 : World) (gen1 gen2 : Generator) (s1 s2 : Z) :
  player1 w = (Normal gen1, w1) ->
  player2 w1 = (Normal gen2, w2) ->
  ignores_input gen1 ->
  ignores_input gen2 ->
  (1 <= N)%nat ->
  fst (Legacy.play player1 player2 N w) = Normal (s1, s2) ->
  exists m' : Match,
    playMatch N (constructed (Match_new player1 player2 (Z.of_nat N) w))
    = Some (Normal Resolved, m')
    /\ status m' = done
    /\ round m' = Z.of_nat N
    /\ score1 m' = s1 /\ score2 m' = s2.
Proof. apply legacy_scores_in_engine. Qed.

(** [goodGuyGreg] against [scumbagSteve] over 3 rounds: (0, 15) in both
    drivers. *)
Lemma engine_agrees_with_legacy_witness :
  exists m' : Match,
    playMatch 3 (constructed (Match_new (factory_of goodGuyGreg_gen)
                                (factory_of scumbagSteve_gen) 3 0%nat))
    = Some (Normal Resolved, m')
    /\ score1 m' = 0 /\ score2 m' = 15.
Proof.
  destruct (engine_agrees_with_legacy (factory_of goodGuyGreg_gen)
              (factory_of scumbagSteve_gen) 3 0%nat 1%nat 2%nat
              goodGuyGreg_gen scumbagSteve_gen 0 15
              eq_refl eq_refl (fun _ _ _ => eq_refl) (fun _ _ _ => eq_refl)
              (le_S _ _ (le_S _ _ (le_n 1))) eq_refl)
    as (m' & P & _ & _ & S1 & S2).
  exists m'. split; [exact P|]. split; [exact S1|exact S2].
Defined.

Lemma always_gen_ignores_input (mv : Move) : ignores_input (always_gen mv).
Proof. intros st a b. reflexivity. Qed.

Lemma Legacy_loop_always (a b : Move) (N : nat) :
  forall (s1 s2 : Z) (p1 p2 : value),
  exists l' : Legacy.Locals,
    Legacy.loop N (Legacy.mkLocals (always_gen a) (always_gen b) s1 s2 p1 p2)
    = Normal l'
    /\ Legacy.score1 l' = s1 + Z.of_nat N * fst (payoff_table a b)
    /\ Legacy.score2 l' = s2 + Z.of_nat N * snd (payoff_table a b).
Proof.
  induction N as [|N IH]; intros s1 s2 p1 p2.
  - eexists. split; [reflexivity|]. cbn [Legacy.score1 Legacy.score2]. lia.
  - assert (It : Legacy.iteration
                   (Legacy.mkLocals (always_gen a) (always_gen b) s1 s2 p1 p2)
                 = Normal (Legacy.mkLocals (always_gen a) (always_gen b)
                             (s1 + fst (payoff_table a b))
                             (s2 + snd (payoff_table a b))
                             (move_value a) (move_value b))).
    { unfold Legacy.iteration, Legacy.getNextMove.
      cbn [Legacy.gen1 Legacy.gen2 Legacy.prev1 Legacy.prev2
           Legacy.score1 Legacy.score2].
      change (next (always_gen a) p2) with (yields (move_value a), always_gen a).
      change (next (always_gen b) p1) with (yields (move_value b), always_gen b).
      unfold yields. cbn [result_done result_value].
      rewrite !move_value_is_move, adjust_table. reflexivity. }
    cbn [Legacy.loop]. rewrite It.
    destruct (IH (s1 + fst (payoff_table a b)) (s2 + snd (payoff_table a b))
                (move_value a) (move_value b)) as (l' & Lp & E1 & E2).
    exists l'. split; [exact Lp|]. rewrite E1, E2. split; lia.
Qed.

(** X10: two strategies that each play one fixed move for ever
    ([goodGuyGreg] is the one for COOPERATE, [scumbagSteve] the one for
    DEFECT), over N >= 1 rounds: the older [play] returns N times the row
    of the payoff table for the two moves, and [playMatch] on
    [new Match(player1, player2, N)] resolves with the match done, the round
    counter at N and the same scores; so two cooperators end (3N, 3N) and a
    cooperator against a defector ends (0, 5N). *)
Theorem constant_strategies_score {World} (w : World) (a b : Move) (N : nat) :
  (1 <= N)%nat ->
  Legacy.play (pure_factory (always_gen a)) (pure_factory (always_gen b)) N w
  = (Normal (Z.of_nat N * fst (payoff_table a b),
             Z.of_nat N * snd (payoff_table a b)), w)
  /\ exists m' : Match,
       playMatch N (constructed (Match_new (pure_factory (always_gen a))
                                   (pure_factory (always_gen b))
                                   (Z.of_nat N) w))
       = Some (Normal Resolved, m')
       /\ status m' = done
       /\ round m' = Z.of_nat N
       /\ score1 m' = Z.of_nat N * fst (payoff_table a b)
       /\ score2 m' = Z.of_nat N * snd (payoff_table a b).
Proof.
  intros HN.
  assert (L : Legacy.play (pure_factory (always_gen a))
                (pure_factory (always_gen b)) N w
              = (Normal (Z.of_nat N * fst (payoff_table a b),
                         Z.of_nat N * snd (payoff_table a b)), w)).
  { unfold Legacy.play, bind, pure_factory.
    destruct (Legacy_loop_always a b N 0 0 VUndefined VUndefined)
      as (l' & Lp & E1 & E2).
    rewrite Lp, E1, E2. reflexivity. }
  split; [exact L|].
  apply (legacy_scores_in_engine (pure_factory (always_gen a))
           (pure_factory (always_gen b)) N w w w
           (always_gen a) (always_gen b)); try reflexivity; try assumption.
  - apply always_gen_ignores_input.
  - apply always_gen_ignores_input.
  - now rewrite L.
Qed.

(** Two always-cooperators over 4 rounds: (12, 12). *)
Lemma constant_strategies_score_witness :
  Legacy.play (pure_factory goodGuyGreg_gen) (pure_factory goodGuyGreg_gen)
    4 tt
  = (Normal (12, 12), tt).
Proof.
  exact (proj1 (constant_strategies_score tt Cooperate Cooperate 4
                  (le_S _ _ (le_S _ _ (le_S _ _ (le_n 1)))))).
Defined.

(** ** More on the Tournament *)

(** Row [i] of a constructed Tournament holds, at column [j], a Match that
    [new Match(players[i], players[j], rounds)] returned. *)
Lemma Tournament_new_rows {World} (ps : list (Factory World)) (rounds : Z)
  (w : World) :
  exists (rows : list (list Match)) (w' : World),
    Tournament_new ps rounds w
    = (Normal (mkTournament World ps rows (repeat 0 (length ps))), w')
    /\ Forall2
         (fun i row =>
            length row = i
            /\ forall j, (j < i)%nat ->
                 exists (m : Match) (w0 w1 : World),
                   nth_error row j = Some m
                   /\ Match_new (player_at World ps i) (player_at World ps j)
                        rounds w0 = (Normal m, w1))
         (seq 0 (length ps)) rows.
Proof.
  unfold Tournament_new, bind, ret.
  destruct (mapM_Forall2
              (fun i => mapM (fun j => Match_new (player_at World ps i)
                                         (player_at World ps j) rounds)
                          (seq 0 i))
              (fun i row =>
                 length row = i
                 /\ forall j, (j < i)%nat ->
                      exists (m : Match) (w0 w1 : World),
                        nth_error row j = Some m
                        /\ Match_new (player_at World ps i)
                             (player_at World ps j) rounds w0 = (Normal m, w1)))
    with (l := seq 0 (length ps)) (s := w) as (rows & w' & E & F).
  - intros i s.
    destruct (mapM_Forall2
                (fun j => Match_new (player_at World ps i)
                            (player_at World ps j) rounds)
                (fun (j : nat) (m : Match) =>
                   exists w0 w1 : World,
                     Match_new (player_at World ps i) (player_at World ps j)
                       rounds w0 = (Normal m, w1)))
      with (l := seq 0 i) (s := s) as (row & s' & Er & Fr).
    + intros j s0.
      destruct (Match_new_returns (player_at World ps i)
                  (player_at World ps j) rounds s0) as (m & s1 & Em).
      exists m, s1. split; [exact Em|]. now exists s0, s1.
    + exists row, s'. split; [exact Er|].
      apply Forall2_seq_nth in Fr. destruct Fr as [L N].
      split; [exact L|]. intros j Hj.
      destruct (N j Hj) as (m & Em & w0 & w1 & Mk).
      now exists m, w0, w1.
  - exists rows, w'. rewrite E. now split.
Qed.

Lemma triangle_count {P : nat -> list Match -> Prop} (rows : list (list Match)) :
  forall a n : nat,
  Forall2 (fun i row => length row = i /\ P i row) (seq a n) rows ->
  (2 * length (concat rows) + n = n * (2 * a + n))%nat.
Proof.
  induction rows as [|row rows IH]; intros a n F.
  - destruct n; [reflexivity|inversion F].
  - destruct n as [|n]; [inversion F|].
    cbn [seq] in F. apply Forall2_cons_iff in F. destruct F as [[L _] F'].
    specialize (IH (S a) n F').
    cbn [concat]. rewrite length_app. nia.
Qed.

(** X11: [new Tournament(players, rounds)] never throws, even when
    factories raise; it keeps the roster, sets one aggregate score 0 per
    player and builds one row of Matches per player; in all it holds
    N (N - 1) / 2 Matches for a roster of N. *)
Theorem Tournament_new_counts {World} (ps : list (Factory World))
  (rounds : Z) (w : World) :
  exists (t : Tournament World) (w' : World),
    Tournament_new ps rounds w = (Normal t, w')
    /\ players t = ps
    /\ scores t = repeat 0 (length ps)
    /\ length (matches t) = length ps
    /\ (2 * match_count t = length ps * (length ps - 1))%nat.
Proof.
  destruct (Tournament_new_rows ps rounds w) as (rows & w' & E & F).
  eexists. exists w'. split; [exact E|]. cbn [players scores matches].
  split; [reflexivity|]. split; [reflexivity|].
  pose proof (Forall2_length F) as Len. rewrite length_seq in Len.
  split; [now symmetry|].
  unfold match_count. cbn [matches].
  pose proof (triangle_count rows 0 (length ps) F) as C. nia.
Qed.

(** X12: on a constructed Tournament of N players, for [0 <= j < i < N],
    [getMatch(i, j)] returns the Match stored at row [i], column [j], and
    that Match is one that [new Match(players[i], players[j], rounds)]
    returned: roster entry [i] is its player 1, roster entry [j] its player
    2, and its roundLimit is the Tournament's. *)
Theorem getMatch_returns_pairing {World} (ps : list (Factory World))
  (rounds : Z) (w : World) (i j : nat) (pi pj : Factory World) :
  (j < i)%nat ->
  nth_error ps i = Some pi ->
  nth_error ps j = Some pj ->
  exists (m : Match) (w0 w1 : World),
    getMatch (constructed_tournament (Tournament_new ps rounds w))
      (VNumber (number_of_nat i)) (VNumber (number_of_nat j))
    = Normal (Some m)
    /\ Match_new pi pj rounds w0 = (Normal m, w1)
    /\ roundLimit m = rounds.
Proof.
  intros Hj Pi Pj.
  assert (Hi : (i < length ps)%nat)
    by (apply nth_error_Some; congruence).
  destruct (Tournament_new_rows ps rounds w) as (rows & w' & E & F).
  rewrite E. cbn [constructed_tournament].
  apply Forall2_seq_nth in F. destruct F as [_ N].
  destruct (N i Hi) as (row & Er & _ & Mr).
  destruct (Mr j Hj) as (m & w0 & w1 & Em & Mk).
  unfold player_at in Mk. cbn [Nat.add] in Mk. rewrite Pi, Pj in Mk.
  exists m, w0, w1.
  change (number_of_nat i) with (number_of_Z (Z.of_nat i)).
  change (number_of_nat j) with (number_of_Z (Z.of_nat j)).
  rewrite getMatch_integers. cbn [players matches].
  replace (Z.of_nat (length ps) <=? Z.of_nat i) with false
    by (symmetry; apply Z.leb_gt; lia).
  replace (Z.of_nat i <=? Z.of_nat j) with false
    by (symmetry; apply Z.leb_gt; lia).
  cbn [orb].
  replace (0 <=? Z.of_nat i) with true by (symmetry; apply Z.leb_le; lia).
  replace (0 <=? Z.of_nat j) with true by (symmetry; apply Z.leb_le; lia).
  rewrite !Nat2Z.id, Er, Em. split; [reflexivity|]. split; [exact Mk|].
  pose proof (Match_new_fields pi pj rounds w0) as (L & _).
  now rewrite Mk in L.
Qed.

(** The Tournament of [goodGuyGreg], [scumbagSteve] and
    [HighExpectationsAsianFather]: [getMatch(2, 1)] is the father against
    [scumbagSteve]. *)
Lemma getMatch_returns_pairing_witness :
  exists (m : Match) (w0 w1 : nat),
    getMatch (constructed_tournament
                (Tournament_new [factory_of goodGuyGreg_gen;
                                 factory_of scumbagSteve_gen;
                                 factory_of HighExpectationsAsianFather_gen]
                   5 0%nat))
      (VNumber (number_of_nat 2)) (VNumber (number_of_nat 1))
    = Normal (Some m)
    /\ Match_new (factory_of HighExpectationsAsianFather_gen)
         (factory_of scumbagSteve_gen) 5 w0 = (Normal m, w1).
Proof.
  destruct (getMatch_returns_pairing
              [factory_of goodGuyGreg_gen; factory_of scumbagSteve_gen;
               factory_of HighExpectationsAsianFather_gen]
              5 0%nat 2 1 (factory_of HighExpectationsAsianFather_gen)
              (factory_of scumbagSteve_gen) (le_n 2) eq_refl eq_refl)
    as (m & w0 & w1 & G & Mk & _).
  exists m, w0, w1. split; [exact G|exact Mk].
Defined.

(** X13: on any Tournament and for integer arguments, [getMatch(i1, i2)]
    throws the invalid-argument error exactly when [i1 >= N] or
    [i2 >= i1]; nothing else about two integers is checked. *)
Theorem getMatch_integer_guard {World} (t : Tournament World) (z1 z2 : Z) :
  getMatch t (VNumber (number_of_Z z1)) (VNumber (number_of_Z z2))
  = Throw invalid_argument
  <-> Z.of_nat (length (players t)) <= z1 \/ z1 <= z2.
Proof.
  rewrite getMatch_integers.
  destruct (Z.of_nat (length (players t)) <=? z1) eqn:A;
    destruct (z1 <=? z2) eqn:B; cbn [orb];
    try apply Z.leb_le in A; try apply Z.leb_gt in A;
    try apply Z.leb_le in B; try apply Z.leb_gt in B;
    try (split; [intros _; lia|reflexivity]).
  split; [|intros [H|H]; lia].
  destruct (0 <=? z1); [|discriminate].
  destruct (nth_error (matches t) (Z.to_nat z1)); discriminate.
Qed.

(** X14: for arguments that are [undefined], booleans, numbers, strings or
    error objects, [getMatch] throws the invalid-argument error whenever one
    of the two is [undefined], a boolean, a string, an error object, [NaN]
    or a finite number that is not an integer, whatever the other argument
    and the Tournament are. *)
Theorem getMatch_rejects_non_integers {World} (t : Tournament World)
  (i1 i2 : value) :
  not_an_integer i1 \/ not_an_integer i2 ->
  getMatch t i1 i2 = Throw invalid_argument.
Proof.
  assert (Fl : forall q : Q,
             (forall z : Z, ~ (q == inject_Z z)%Q) ->
             Qeq_bool (inject_Z (Qfloor q)) q = false).
  { intros q Hq. destruct (Qeq_bool (inject_Z (Qfloor q)) q) eqn:E;
      [|reflexivity].
    apply Qeq_bool_eq in E. exfalso. apply (Hq (Qfloor q)). now symmetry. }
  unfold getMatch. intros [H|H].
  - destruct i1 as [| |[q| | |]|s|nm msg]; try reflexivity;
      destruct i2 as [| |n2|s2|nm2 msg2]; try reflexivity;
      cbn in H; try contradiction.
    cbn [Math_floor number_eqb]. now rewrite (Fl q H).
  - destruct i1 as [| |n1|s|nm msg]; try reflexivity;
      destruct i2 as [| |[q| | |]|s2|nm2 msg2]; try reflexivity;
      cbn in H; try contradiction.
    + cbn [Math_floor number_eqb]. rewrite (Fl q H). cbn [negb].
      now rewrite orb_true_r.
    + cbn [Math_floor number_eqb negb]. now rewrite orb_true_r.
Qed.

(** [getMatch(1, 0.5)] on a Tournament of two. *)
Lemma getMatch_rejects_non_integers_witness :
  getMatch (constructed_tournament
              (Tournament_new [factory_of goodGuyGreg_gen;
                               factory_of scumbagSteve_gen] 3 0%nat))
    (VNumber (number_of_Z 1)) (VNumber (Finite (1 # 2)))
  = Throw invalid_argument.
Proof.
  apply getMatch_rejects_non_integers. right. cbn. intros z E.
  unfold Qeq in E. cbn in E. lia.
Defined.

(** X15: on a constructed Tournament of N players, [getScore(i)] for a
    roster index [i] returns the number 0 with one ["[object Object]"]
    appended per opponent, the same for every [i] and whatever the Matches
    hold (the number 0 itself when N = 1); and for every index [k >= N]
    other than 0 it throws a [TypeError]. *)
Theorem getScore_of_constructed {World} (ps : list (Factory World))
  (rounds : Z) (w : World) (i : nat) :
  (i < length ps)%nat ->
  getScore (constructed_tournament (Tournament_new ps rounds w)) i
  = Normal (add_objects (ScoreNumber 0) (length ps - 1))
  /\ forall k : nat,
       (length ps <= k)%nat -> (0 < k)%nat ->
       getScore (constructed_tournament (Tournament_new ps rounds w)) k
       = Throw (TypeError "Cannot read properties of undefined").
Proof.
  intros Hin. split; [now apply getScore_constructed|].
  intros k Hk Hpos.
  destruct (Tournament_new_grid ps rounds w) as (_ & _ & Len & _).
  unfold getScore. destruct k as [|k]; [lia|].
  cbn [seq map accumulate]. unfold matches_at.
  replace (nth_error
             (matches (constructed_tournament (Tournament_new ps rounds w)))
             (S k)) with (@None (list Match)); [reflexivity|].
  symmetry. apply nth_error_None. lia.
Qed.

(** Three players: every score is the number 0 with two objects appended. *)
Lemma getScore_of_constructed_witness :
  getScore (constructed_tournament
              (Tournament_new [factory_of goodGuyGreg_gen;
                               factory_of scumbagSteve_gen;
                               factory_of HighExpectationsAsianFather_gen]
                 5 0%nat)) 1
  = Normal (ScoreString "0[object Object][object Object]").
Proof.
  exact (proj1 (getScore_of_constructed
                  [factory_of goodGuyGreg_gen; factory_of scumbagSteve_gen;
                   factory_of HighExpectationsAsianFather_gen]
                  5 0%nat 1 (le_S _ _ (le_n 2)))).
Defined.

(** ** The example strategies *)

Lemma father_disowned (args : list value) :
  resume_all (mkGenerator FatherState FatherDisowned
                HighExpectationsAsianFather_next) args
  = repeat (yields DEFECT) (length args).
Proof.
  induction args as [|arg rest IH]; [reflexivity|].
  cbn [length repeat]. rewrite <- IH. reflexivity.
Qed.

Lemma father_trusting (k : nat) (x : value) (rest : list value) :
  (x === COOPERATE) = false ->
  resume_all (mkGenerator FatherState FatherTrusting
                HighExpectationsAsianFather_next)
    (repeat COOPERATE k ++ x :: rest)
  = repeat (yields COOPERATE) k ++ repeat (yields DEFECT) (S (length rest)).
Proof.
  intros Hx. induction k as [|k IH].
  - cbn [repeat app]. rewrite <- (father_disowned rest).
    cbn [resume_all]. unfold next.
    cbn [gen_next gen_current gen_state HighExpectationsAsianFather_next].
    now rewrite Hx.
  - cbn [repeat app] in IH |- *. rewrite <- IH. reflexivity.
Qed.

(** X16: [HighExpectationsAsianFather] cooperates on its first resumption
    whatever it is given, keeps cooperating as long as every later
    resumption gives it COOPERATE, and from the first resumption that gives
    it anything else ([undefined] included) it defects for ever, whatever it
    is given afterwards; it never returns and never throws. *)
Theorem father_cooperates_until_disappointed
  (first x : value) (k : nat) (rest : list value) :
  (x === COOPERATE) = false ->
  resume_all HighExpectationsAsianFather_gen
    (first :: repeat COOPERATE k ++ x :: rest)
  = repeat (yields COOPERATE) (S k) ++ repeat (yields DEFECT) (S (length rest)).
Proof.
  intros Hx. pose proof (father_trusting k x rest Hx) as T.
  cbn [repeat app] in T |- *. rewrite <- T. reflexivity.
Qed.

(** Two cooperations answered, then [undefined], then COOPERATE again. *)
Lemma father_cooperates_until_disappointed_witness :
  resume_all HighExpectationsAsianFather_gen
    [VUndefined; COOPERATE; COOPERATE; VUndefined; COOPERATE]
  = [yields COOPERATE; yields COOPERATE; yields COOPERATE;
     yields DEFECT; yields DEFECT].
Proof.
  exact (father_cooperates_until_disappointed VUndefined VUndefined 2
           [COOPERATE] eq_refl).
Defined.

(** ** Bounds on what the older driver returns *)

Lemma Legacy_loop_bounds (N : nat) :
  forall l l' : Legacy.Locals,
  Legacy.loop N l = Normal l' ->
  0 <= Legacy.score1 l' - Legacy.score1 l <= 5 * Z.of_nat N
  /\ 0 <= Legacy.score2 l' - Legacy.score2 l <= 5 * Z.of_nat N
  /\ 2 * Z.of_nat N
     <= (Legacy.score1 l' - Legacy.score1 l)
        + (Legacy.score2 l' - Legacy.score2 l)
     <= 6 * Z.of_nat N.
Proof.
  induction N as [|N IH]; intros l l' Lp.
  - cbn [Legacy.loop] in Lp. injection Lp as <-. lia.
  - cbn [Legacy.loop] in Lp.
    destruct (Legacy.iteration l) as [l1|exc] eqn:It; [|discriminate Lp].
    specialize (IH l1 l' Lp).
    unfold Legacy.iteration in It.
    destruct (Legacy.getNextMove "1" (Legacy.gen1 l) (Legacy.prev2 l))
      as [[move1|exc1] g1'] eqn:M1; [|discriminate It].
    destruct (Legacy.getNextMove "2" (Legacy.gen2 l) (Legacy.prev1 l))
      as [[move2|exc2] g2'] eqn:M2; [|discriminate It].
    destruct (Legacy_getNextMove_normal _ _ _ _ _ M1) as (a & -> & _).
    destruct (Legacy_getNextMove_normal _ _ _ _ _ M2) as (b & -> & _).
    rewrite adjust_table in It. injection It as <-.
    cbn [Legacy.score1 Legacy.score2] in IH.
    destruct a, b; cbn [payoff_table fst snd] in IH; lia.
Qed.

(** X17: when [play] of [dilemma.js] returns scores for N rounds, whatever
    the strategies are, each score is between 0 and 5N and the two scores
    add up to between 2N and 6N. *)
Theorem Legacy_play_bounds {World} (player1 player2 : Factory World)
  (N : nat) (w : World) (s1 s2 : Z) :
  fst (Legacy.play player1 player2 N w) = Normal (s1, s2) ->
  0 <= s1 <= 5 * Z.of_nat N
  /\ 0 <= s2 <= 5 * Z.of_nat N
  /\ 2 * Z.of_nat N <= s1 + s2 <= 6 * Z.of_nat N.
Proof.
  unfold Legacy.play, bind.
  destruct (player1 w) as [[g1|e1] w1]; [|discriminate].
  destruct (player2 w1) as [[g2|e2] w2]; [|discriminate].
  destruct (Legacy.loop N (Legacy.mkLocals g1 g2 0 0 VUndefined VUndefined))
    as [l'|exc] eqn:Lp; [|discriminate].
  cbn [fst]. intros E. injection E as <- <-.
  pose proof (Legacy_loop_bounds N _ l' Lp) as B.
  cbn [Legacy.score1 Legacy.score2] in B. lia.
Qed.

(** [HighExpectationsAsianFather] against [scumbagSteve] over 3 rounds in
    the older driver: (2, 7). *)
Lemma Legacy_play_bounds_witness :
  0 <= 2 <= 5 * 3 /\ 0 <= 7 <= 5 * 3 /\ 2 * 3 <= 2 + 7 <= 6 * 3.
Proof.
  exact (Legacy_play_bounds (factory_of HighExpectationsAsianFather_gen)
           (factory_of scumbagSteve_gen) 3 0%nat 2 7 eq_refl).
Defined.

(** ** What the engine resumes its strategies with *)

Lemma getNextMove_state (name : Z) (g : Generator) (arg : value) (m : Match) :
  snd (getNextMove name (Some g) arg m) = set_g name (snd (next g arg)) m.
Proof.
  unfold getNextMove.
  destruct (next g arg) as [[result|exc] g']; unfold bind, modify, throw, ret;
    cbn [snd]; [|reflexivity].
  destruct (result_done result).
  - pose proof (logError_same_fields
      (Error ("Player " ++ decimal name ++ " returned without yielding!"))
      (set_g name g' m)) as L.
    destruct (logError _ (set_g name g' m)) as [[[]|exc] m']; exact L.
  - destruct ((result_value result !== COOPERATE)
              && (result_value result !== DEFECT)); [|reflexivity].
    pose proof (logError_same_fields
      (Error ("Player " ++ decimal name
         ++ " made an illegal move (please yield COOPERATE or DEFECT)"))
      (set_g name g' m)) as L.
    destruct (logError _ (set_g name g' m)) as [[[]|exc] m']; exact L.
Qed.

Lemma resumed_snoc (g : Generator) (args : list value) (arg : value) :
  resumed g (args ++ [arg]) = snd (next (resumed g args) arg).
Proof.
  revert g. induction args as [|a rest IH]; intros g; [reflexivity|].
  cbn [app resumed]. apply IH.
Qed.

Lemma resumed_repeat_succ (g : Generator) (v : value) (k : nat) :
  resumed g (repeat v (S k)) = snd (next (resumed g (repeat v k)) v).
Proof.
  rewrite <- resumed_snoc. f_equal.
  induction k as [|k IH]; [reflexivity|].
  cbn [repeat app] in IH |- *. now rewrite <- IH.
Qed.

(** One call of [playRound] resumes each strategy at most once, with
    [lastMove2] and [lastMove1]. *)
Lemma playRound_generators (m : Match) (h1 h2 : Generator) :
  _g1 m = Some h1 -> _g2 m = Some h2 ->
  (_g1 (snd (playRound m)) = Some h1
   \/ _g1 (snd (playRound m)) = Some (snd (next h1 (lastMove2 m))))
  /\ (_g2 (snd (playRound m)) = Some h2
      \/ _g2 (snd (playRound m)) = Some (snd (next h2 (lastMove1 m)))).
Proof.
  intros G1 G2. destruct (status m) eqn:Hst.
  - rewrite (playRound_paused m Hst). unfold roundMoves, bind, get. fields.
    rewrite G1.
    pose proof (getNextMove_state 1 h1 (lastMove2 m) (set_status running m))
      as S1.
    destruct (getNextMove 1 (Some h1) (lastMove2 m) (set_status running m))
      as [[move1|exc] m1]; cbn [snd] in S1; subst m1; fields.
    + rewrite G2.
      pose proof (getNextMove_state 2 h2 (lastMove1 m)
                    (set_g1 (Some (snd (next h1 (lastMove2 m))))
                       (set_status running m))) as S2.
      fields.
      destruct (getNextMove 2 (Some h2) (lastMove1 m)
                  (set_g1 (Some (snd (next h1 (lastMove2 m))))
                     (set_status running m)))
        as [[move2|exc] m2]; cbn [snd ret] in S2 |- *; subst m2.
      * destruct ((move1 === VUndefined) || (move2 === VUndefined)).
        -- unfold forfeitRound. fields. split; now right.
        -- unfold scoreRound. destruct (evaluate move1 move2). fields.
           split; now right.
      * fields. split; now right.
    + cbn [snd]. fields. rewrite G2. split; [now right|now left].
  - rewrite (playRound_running m Hst). cbn [snd]. split; now left.
  - rewrite (playRound_done m Hst). cbn [snd]. split; now left.
Qed.

(** X18: on a Match built by the constructor from two factories that
    return the generators [gen1] and [gen2], after any number [n] of calls
    of [playRound] each generator is in the state that some number (at most
    [n]) of resumptions with [undefined] leave it in: the engine never
    resumes a strategy with a move. *)
Theorem strategies_resumed_with_undefined {World}
  (player1 player2 : Factory World) (rounds : Z) (w w1 w2 : World)
  (gen1 gen2 : Generator) (n : nat) :
  player1 w = (Normal gen1, w1) ->
  player2 w1 = (Normal gen2, w2) ->
  exists k1 k2 : nat,
    (k1 <= n)%nat /\ (k2 <= n)%nat
    /\ _g1 (playRounds n (constructed (Match_new player1 player2 rounds w)))
       = Some (resumed gen1 (repeat VUndefined k1))
    /\ _g2 (playRounds n (constructed (Match_new player1 player2 rounds w)))
       = Some (resumed gen2 (repeat VUndefined k2)).
Proof.
  intros P1 P2. induction n as [|n (k1 & k2 & H1 & H2 & G1 & G2)].
  - exists 0%nat, 0%nat.
    rewrite (Match_new_both_made player1 player2 rounds w w1 w2 gen1 gen2 P1 P2).
    now repeat split.
  - rewrite playRounds_succ.
    destruct (lastMove_stays_undefined player1 player2 rounds w n) as [L1 L2].
    destruct (playRound_generators _ _ _ G1 G2) as [[A|A] [B|B]];
      try (rewrite L2, <- resumed_repeat_succ in A);
      try (rewrite L1, <- resumed_repeat_succ in B).
    + exists k1, k2. repeat split; try lia; assumption.
    + exists k1, (S k2). repeat split; try lia; assumption.
    + exists (S k1), k2. repeat split; try lia; assumption.
    + exists (S k1), (S k2). repeat split; try lia; assumption.
Qed.

(** The recording strategy against [HighExpectationsAsianFather] over 3
    rounds, after 3 round-advances. *)
Lemma strategies_resumed_with_undefined_witness :
  exists k1 k2 : nat,
    (k1 <= 3)%nat /\ (k2 <= 3)%nat
    /\ _g1 (playRounds 3
              (constructed (Match_new (factory_of recorder_gen)
                              (factory_of HighExpectationsAsianFather_gen)
                              3 0%nat)))
       = Some (resumed recorder_gen (repeat VUndefined k1))
    /\ _g2 (playRounds 3
              (constructed (Match_new (factory_of recorder_gen)
                              (factory_of HighExpectationsAsianFather_gen)
                              3 0%nat)))
       = Some (resumed HighExpectationsAsianFather_gen (repeat VUndefined k2)).
Proof.
  exact (strategies_resumed_with_undefined (factory_of recorder_gen)
           (factory_of HighExpectationsAsianFather_gen) 3 0%nat 1%nat 2%nat
           recorder_gen HighExpectationsAsianFather_gen 3 eq_refl eq_refl).
Defined.

(** X3: on a constructed Tournament of N players, what [getMatch] does with
    two integers that pass its guard ([i2 < i1 < N]): with [i2 >= 0] it
    returns a stored Match; with [i1 >= 0] and [i2] negative it throws
    nothing and returns [undefined]; with [i1] negative it throws a
    [TypeError], not the invalid-argument error. *)
Theorem getMatch_past_the_guard {World} (ps : list (Factory World))
  (rounds : Z) (w : World) (z1 z2 : Z) :
  z2 < z1 ->
  z1 < Z.of_nat (length ps) ->
  (0 <= z2 ->
   exists m : Match,
     getMatch (constructed_tournament (Tournament_new ps rounds w))
       (VNumber (number_of_Z z1)) (VNumber (number_of_Z z2))
     = Normal (Some m))
  /\ (0 <= z1 -> z2 < 0 ->
      getMatch (constructed_tournament (Tournament_new ps rounds w))
        (VNumber (number_of_Z z1)) (VNumber (number_of_Z z2))
      = Normal None)
  /\ (z1 < 0 ->
      getMatch (constructed_tournament (Tournament_new ps rounds w))
        (VNumber (number_of_Z z1)) (VNumber (number_of_Z z2))
      = Throw (TypeError "Cannot read properties of undefined")).
Proof.
  intros H21 H1N. split; [|split].
  - intros H2.
    destruct (getMatch_valid ps rounds w (Z.to_nat z1) (Z.to_nat z2))
      as (row & m & _ & _ & G); [lia|].
    exists m. unfold number_of_nat in G. now rewrite !Z2Nat.id in G by lia.
  - intros H1 H2.
    pose proof (getMatch_negative_column ps rounds w (Z.to_nat z1) z2) as G.
    unfold number_of_nat in G. rewrite Z2Nat.id in G by lia.
    apply G; lia.
  - intros H1. rewrite getMatch_integers.
    destruct (Tournament_new_grid ps rounds w) as (_ & P & _). rewrite P.
    replace (Z.of_nat (length ps) <=? z1) with false
      by (symmetry; apply Z.leb_gt; lia).
    replace (z1 <=? z2) with false by (symmetry; apply Z.leb_gt; lia).
    replace (0 <=? z1) with false by (symmetry; apply Z.leb_gt; lia).
    reflexivity.
Qed.

(** [getMatch(2, -3)] on a Tournament of three. *)
Lemma getMatch_past_the_guard_witness :
  getMatch (constructed_tournament
              (Tournament_new [factory_of goodGuyGreg_gen;
                               factory_of scumbagSteve_gen;
                               factory_of HighExpectationsAsianFather_gen]
                 5 0%nat))
    (VNumber (number_of_Z 2)) (VNumber (number_of_Z (-3)))
  = Normal None.
Proof.
  refine (proj1 (proj2 (getMatch_past_the_guard
                          [factory_of goodGuyGreg_gen;
                           factory_of scumbagSteve_gen;
                           factory_of HighExpectationsAsianFather_gen]
                          5 0%nat 2 (-3) eq_refl eq_refl)) _ eq_refl).
  discriminate.
Defined.

(** A concrete round of a constructed Match: always-cooperate against
    always-defect, first round. *)
Lemma resolved_round_is_scored_witness :
  round (playRounds 1
           (constructed (Match_new (factory_of goodGuyGreg_gen)
                           (factory_of scumbagSteve_gen) 3 0%nat)))
  = 0 + 1.
Proof.
  exact (proj1 (proj2 (resolved_round_is_scored (factory_of goodGuyGreg_gen)
                         (factory_of scumbagSteve_gen) 3 0%nat 0)
                  eq_refl)).
Defined.

(** ** The state of a Match after a forfeit *)

(** C8, the code at a failing input: [function* () {}] (returns without
    yielding) against [goodGuyGreg] over 3 rounds.  In the first
    round-advance player 1's strategy terminates without a move, which is a
    forfeit; yet after that round-advance and any number of further ones
    the match is running, not done, with the round counter at 0 and
    roundLimit 3: "done if and only if the round counter equals roundLimit
    or a forfeit occurred" fails, because the call of the missing
    [_logError] throws before the forfeit block is reached. *)
Theorem forfeit_leaves_match_running :
  illegal_move_in_round
    (constructed (Match_new (factory_of quitter_gen)
                    (factory_of goodGuyGreg_gen) 3 0%nat))
  = true
  /\ forall n : nat,
       public_state
         (playRounds (S n)
            (constructed (Match_new (factory_of quitter_gen)
                            (factory_of goodGuyGreg_gen) 3 0%nat)))
       = (running, 0, 0, 0)
       /\ roundLimit
            (playRounds (S n)
               (constructed (Match_new (factory_of quitter_gen)
                               (factory_of goodGuyGreg_gen) 3 0%nat)))
          = 3
       /\ forfeit_occurred (factory_of quitter_gen)
            (factory_of goodGuyGreg_gen) 0%nat
            (constructed (Match_new (factory_of quitter_gen)
                            (factory_of goodGuyGreg_gen) 3 0%nat))
            (S n)
       /\ ~ (status
               (playRounds (S n)
                  (constructed (Match_new (factory_of quitter_gen)
                                  (factory_of goodGuyGreg_gen) 3 0%nat)))
             = done
             <-> round
                   (playRounds (S n)
                      (constructed (Match_new (factory_of quitter_gen)
                                      (factory_of goodGuyGreg_gen) 3 0%nat)))
                 = roundLimit
                     (playRounds (S n)
                        (constructed (Match_new (factory_of quitter_gen)
                                        (factory_of goodGuyGreg_gen) 3 0%nat)))
                 \/ forfeit_occurred (factory_of quitter_gen)
                      (factory_of goodGuyGreg_gen) 0%nat
                      (constructed (Match_new (factory_of quitter_gen)
                                      (factory_of goodGuyGreg_gen) 3 0%nat))
                      (S n)).
Proof.
  split; [reflexivity|]. intros n.
  assert (F : forfeit_occurred (factory_of quitter_gen)
                (factory_of goodGuyGreg_gen) 0%nat
                (constructed (Match_new (factory_of quitter_gen)
                                (factory_of goodGuyGreg_gen) 3 0%nat))
                (S n)).
  { right. exists 0%nat. split; [lia|reflexivity]. }
  cbn [playRounds].
  rewrite playRounds_frozen by (vm_compute; discriminate).
  split; [reflexivity|]. split; [reflexivity|]. split; [exact F|].
  intros [_ Back]. specialize (Back (or_intror F)). discriminate Back.
Qed.
